(** * salve-dom: incremental validation of a DOM tree against a grammar

    A shallow embedding of [src/main.ts] (class [Validator]) and proofs about
    it.  The grammar engine (the [salve] library: [Grammar], [GrammarWalker],
    [Event], [EventSet], [ValidationError]) is an external collaborator and is
    taken as an interface, the class [Salve] below.

    Modelling conventions.
    - The DOM tree is an immutable value of type [Node]; a node of the tree is
      designated by its address (the child indices from the node up to the
      root), so that [parentNode] is the tail of the address and node identity
      ([===] in the source) is equality of addresses.  Attribute nodes are
      designated by their owner element and their position.
    - The expando properties the validator writes on DOM nodes are a finite
      map from (node, property name) to value, carried next to the tree.
    - Walkers are values: [clone()] is the identity, and a method that mutates
      a walker returns the new walker.  The source never fires an event on a
      walker it obtained from the cache or from [_getWalkerAt] without cloning
      it first, and [possible()] and [resolveName()] only read.
    - Exceptions keep the state reached when they are thrown: a computation is
      a function from the validator state to an outcome and a state.
    - [partDone] and [portion] are rationals standing for JavaScript numbers.
    - Unbounded loops ([while (...) this._cycle()]) take a fuel argument and
      end in [OutOfFuel] when it is exhausted. *)

From Stdlib Require Import ZArith QArith String List Bool Lia.
From stdpp Require Import base gmap strings list.

Set Warnings "-register-all".

Local Open Scope string_scope.
Local Open Scope Z_scope.

(** ** The DOM tree *)

Record Attr := mkAttr {
  attr_name : string;
  attr_prefix : option string;
  attr_value : string
}.

Inductive OtherKind := CDataSection | ProcessingInstruction | DocumentType.

Inductive Node :=
| Element (tagName : string) (attributes : list Attr) (children : list Node)
| Text (data : string)
| Comment (data : string)
| Document (children : list Node)
| DocumentFragment (children : list Node)
| OtherNode (kind : OtherKind).

Definition ELEMENT_NODE : Z := 1.
Definition TEXT_NODE : Z := 3.
Definition COMMENT_NODE : Z := 8.
Definition DOCUMENT_NODE : Z := 9.
Definition DOCUMENT_FRAGMENT_NODE : Z := 11.

Definition nodeType (n : Node) : Z :=
  match n with
  | Element _ _ _ => ELEMENT_NODE
  | Text _ => TEXT_NODE
  | Comment _ => COMMENT_NODE
  | Document _ => DOCUMENT_NODE
  | DocumentFragment _ => DOCUMENT_FRAGMENT_NODE
  | OtherNode CDataSection => 4
  | OtherNode ProcessingInstruction => 7
  | OtherNode DocumentType => 10
  end.

Definition childNodes (n : Node) : list Node :=
  match n with
  | Element _ _ cs | Document cs | DocumentFragment cs => cs
  | _ => []
  end.

Definition isElement (n : Node) : bool :=
  match n with Element _ _ _ => true | _ => false end.

Definition isText (n : Node) : bool :=
  match n with Text _ => true | _ => false end.

(** The address of a node: child indices, innermost first.  The root is []. *)
Definition Path := list nat.

Inductive NodeRef :=
| NodeAt (p : Path)
| AttrAt (owner : Path) (ix : nat).

#[global] Instance NodeRef_eq_dec : EqDecision NodeRef.
Proof. solve_decision. Defined.

#[global] Instance NodeRef_countable : Countable NodeRef.
Proof.
  refine (inj_countable'
            (fun r => match r with
                      | NodeAt p => inl p
                      | AttrAt o i => inr (o, i)
                      end)
            (fun s => match s with
                      | inl p => NodeAt p
                      | inr (o, i) => AttrAt o i
                      end) _).
  intros []; reflexivity.
Defined.

Fixpoint descend (n : Node) (down : list nat) : option Node :=
  match down with
  | [] => Some n
  | i :: rest =>
      match childNodes n !! i with
      | Some c => descend c rest
      | None => None
      end
  end.

Definition nodeAt (doc : Node) (p : Path) : option Node := descend doc (rev p).

Definition attrAt (doc : Node) (owner : Path) (ix : nat) : option Attr :=
  match nodeAt doc owner with
  | Some (Element _ attrs _) => attrs !! ix
  | _ => None
  end.

Definition childrenAt (doc : Node) (p : Path) : list Node :=
  match nodeAt doc p with
  | Some n => childNodes n
  | None => []
  end.

(** [container.childNodes[index]] for a JavaScript number [index]. *)
Definition childAt (cs : list Node) (index : Z) : option (nat * Node) :=
  if index <? 0 then None
  else match cs !! Z.to_nat index with
       | Some n => Some (Z.to_nat index, n)
       | None => None
       end.

Definition childElementCount (n : Node) : nat :=
  length (filter (fun c => isElement c = true) (childNodes n)).

(** The greatest [j < i] such that [cs[j]] is an element. *)
Fixpoint lastElementBefore (cs : list Node) (i : nat) : option nat :=
  match i with
  | O => None
  | S j =>
      match cs !! j with
      | Some n => if isElement n then Some j else lastElementBefore cs j
      | None => lastElementBefore cs j
      end
  end.

Definition previousElementSibling (cs : list Node) (i : nat) : option nat :=
  lastElementBefore cs i.

Definition lastElementChild (cs : list Node) : option nat :=
  lastElementBefore cs (length cs).

Definition parentNode (r : NodeRef) : option Path :=
  match r with
  | NodeAt (_ :: p) => Some p
  | NodeAt [] => None
  | AttrAt _ _ => None
  end.

(** ** Events of the grammar engine *)

Inductive Event :=
| EnterContext
| LeaveContext
| DefinePrefix (prefix uri : string)
| EnterStartTag (ns name : string)
| AttributeName (ns name : string)
| AttributeValue (value : string)
| LeaveStartTag
| TextEvent (value : string)
| EndTag (ns name : string).

Record EName := mkEName { ename_ns : string; ename_name : string }.

(** The interface of the grammar engine.  [W] is the type of walkers, [VE] of
    validation errors and [PE] of the members of an [EventSet]; a member has
    an event name ([params[0]]) and a name pattern ([params[1]]) with [match]
    and [wildcardMatch].  [fireEvent] and [walkerEnd] return [None] where the
    source gets [false], and the array of errors otherwise. *)
Class Salve (W VE PE : Type) := {
  newWalker : W;
  fireEvent : W -> Event -> W * option (list VE);
  walkerEnd : W -> W * option (list VE);
  possible : W -> list PE;
  resolveName : W -> string -> bool -> option EName;
  peName : PE -> string;
  peMatch : PE -> string -> string -> bool;
  peWildcardMatch : PE -> string -> string -> bool;
  mkValidationError : string -> VE
}.

(** ** Data of the validator *)

Inductive Stage := START_TAG | CONTENTS | END_TAG.

Inductive WorkingState := INCOMPLETE | WORKING | INVALID | VALID.

#[global] Instance WorkingState_eq_dec : EqDecision WorkingState.
Proof. solve_decision. Defined.

Record ProgressState := mkProgressState { partDone : Q; portion : Q }.

Inductive CustomNodeProperty :=
| EventIndexAfter
| EventIndexAfterStart
| EventIndexBeforeAttributes
| EventIndexAfterAttributes
| PossibleDueToWildcard.

Definition keyName (k : CustomNodeProperty) : string :=
  match k with
  | EventIndexAfter => "EventIndexAfter"
  | EventIndexAfterStart => "EventIndexAfterStart"
  | EventIndexBeforeAttributes => "EventIndexBeforeAttributes"
  | EventIndexAfterAttributes => "EventIndexAfterAttributes"
  | PossibleDueToWildcard => "PossibleDueToWildcard"
  end.

Inductive PropVal := PNum (n : nat) | PBool (b : bool).

#[global] Instance PropVal_eq_dec : EqDecision PropVal.
Proof. solve_decision. Defined.

Record Options := mkOptions {
  opt_prefix : option string;
  opt_timeout : option Z;
  opt_maxTimespan : option Z;
  opt_walkerCacheGap : option Z
}.

Definition noOptions : Options := mkOptions None None None None.

Inductive OptionKey := K_timeout | K_maxTimespan | K_walkerCacheGap.

Inductive Exn :=
| NegativeOption (key : OptionKey)
| CycleReentered
| CycleEnteredNegative
| UnexpectedNodeType (t : Z)
| UnexpectedState
| NotAnElementNode
| EventIndexException
| FireTextWithoutWalker
| ToParseNotElement
| NodeWithoutParent
| HierarchyRequestError
| TypeError.

Inductive Outcome (A : Type) :=
| Ret (a : A)
| Throw (e : Exn)
| OutOfFuel.
Arguments Ret {A} a.
Arguments Throw {A} e.
Arguments OutOfFuel {A}.

Record ErrorData (VE : Type) := mkErrorData {
  error : VE;
  node : option NodeRef;
  index : option nat
}.
Arguments mkErrorData {VE} error node index.
Arguments error {VE} e.
Arguments node {VE} e.
Arguments index {VE} e.

(** What the validator publishes through its event emitter. *)
Inductive Notification (VE : Type) :=
| N_error (e : ErrorData VE)
| N_reset_errors (at_ : nat)
| N_state_update (state : WorkingState) (done : Q)
| N_possible_due_to_wildcard_change (n : NodeRef).
Arguments N_error {VE} e.
Arguments N_reset_errors {VE} at_.
Arguments N_state_update {VE} state done.
Arguments N_possible_due_to_wildcard_change {VE} n.

(** The fields of the class.  [_events] is the list of the notifications
    published so far, [root] the tree under validation with its [expando]
    properties, and [hostTimers] the number of timers the host has handed out
    through [setTimeout]. *)
Record Validator (W VE : Type) := mkValidator {
  _cycleEntered : Z;
  _timeout : Z;
  _maxTimespan : Z;
  _timeoutId : option nat;
  _restarting : bool;
  _errors : list (ErrorData VE);
  _validationEvents : list Event;
  _validationWalker : W;
  _workingState : WorkingState;
  _partDone : Q;
  _validationStage : Stage;
  _previousChild : option Path;
  _validationStack : list ProgressState;
  _curEl : Path;
  _walkerCache : gmap Z W;
  _walkerCacheMax : Z;
  _prefix : string;
  _walkerCacheGap : Z;
  _events : list (Notification VE);
  root : Node;
  expando : gmap (NodeRef * string) PropVal;
  hostTimers : nat
}.
Arguments _cycleEntered {W VE} v.
Arguments _timeout {W VE} v.
Arguments _maxTimespan {W VE} v.
Arguments _timeoutId {W VE} v.
Arguments _restarting {W VE} v.
Arguments _errors {W VE} v.
Arguments _validationEvents {W VE} v.
Arguments _validationWalker {W VE} v.
Arguments _workingState {W VE} v.
Arguments _partDone {W VE} v.
Arguments _validationStage {W VE} v.
Arguments _previousChild {W VE} v.
Arguments _validationStack {W VE} v.
Arguments _curEl {W VE} v.
Arguments _walkerCache {W VE} v.
Arguments _walkerCacheMax {W VE} v.
Arguments _prefix {W VE} v.
Arguments _walkerCacheGap {W VE} v.
Arguments _events {W VE} v.
Arguments root {W VE} v.
Arguments expando {W VE} v.
Arguments hostTimers {W VE} v.
Arguments mkValidator {W VE}.

Section Setters.
Context {W VE : Type}.
Implicit Type st : Validator W VE.

Definition set_cycleEntered (x : Z) st : Validator W VE :=
  mkValidator x (_timeout st) (_maxTimespan st) (_timeoutId st) (_restarting st) (_errors st) (_validationEvents st) (_validationWalker st) (_workingState st) (_partDone st) (_validationStage st) (_previousChild st) (_validationStack st) (_curEl st) (_walkerCache st) (_walkerCacheMax st) (_prefix st) (_walkerCacheGap st) (_events st) (root st) (expando st) (hostTimers st).

Definition set_timeout (x : Z) st : Validator W VE :=
  mkValidator (_cycleEntered st) x (_maxTimespan st) (_timeoutId st) (_restarting st) (_errors st) (_validationEvents st) (_validationWalker st) (_workingState st) (_partDone st) (_validationStage st) (_previousChild st) (_validationStack st) (_curEl st) (_walkerCache st) (_walkerCacheMax st) (_prefix st) (_walkerCacheGap st) (_events st) (root st) (expando st) (hostTimers st).

Definition set_maxTimespan (x : Z) st : Validator W VE :=
  mkValidator (_cycleEntered st) (_timeout st) x (_timeoutId st) (_restarting st) (_errors st) (_validationEvents st) (_validationWalker st) (_workingState st) (_partDone st) (_validationStage st) (_previousChild st) (_validationStack st) (_curEl st) (_walkerCache st) (_walkerCacheMax st) (_prefix st) (_walkerCacheGap st) (_events st) (root st) (expando st) (hostTimers st).

Definition set_timeoutId (x : option nat) st : Validator W VE :=
  mkValidator (_cycleEntered st) (_timeout st) (_maxTimespan st) x (_restarting st) (_errors st) (_validationEvents st) (_validationWalker st) (_workingState st) (_partDone st) (_validationStage st) (_previousChild st) (_validationStack st) (_curEl st) (_walkerCache st) (_walkerCacheMax st) (_prefix st) (_walkerCacheGap st) (_events st) (root st) (expando st) (hostTimers st).

Definition set_restarting (x : bool) st : Validator W VE :=
  mkValidator (_cycleEntered st) (_timeout st) (_maxTimespan st) (_timeoutId st) x (_errors st) (_validationEvents st) (_validationWalker st) (_workingState st) (_partDone st) (_validationStage st) (_previousChild st) (_validationStack st) (_curEl st) (_walkerCache st) (_walkerCacheMax st) (_prefix st) (_walkerCacheGap st) (_events st) (root st) (expando st) (hostTimers st).

Definition set_errors (x : list (ErrorData VE)) st : Validator W VE :=
  mkValidator (_cycleEntered st) (_timeout st) (_maxTimespan st) (_timeoutId st) (_restarting st) x (_validationEvents st) (_validationWalker st) (_workingState st) (_partDone st) (_validationStage st) (_previousChild st) (_validationStack st) (_curEl st) (_walkerCache st) (_walkerCacheMax st) (_prefix st) (_walkerCacheGap st) (_events st) (root st) (expando st) (hostTimers st).

Definition set_validationEvents (x : list Event) st : Validator W VE :=
  mkValidator (_cycleEntered st) (_timeout st) (_maxTimespan st) (_timeoutId st) (_restarting st) (_errors st) x (_validationWalker st) (_workingState st) (_partDone st) (_validationStage st) (_previousChild st) (_validationStack st) (_curEl st) (_walkerCache st) (_walkerCacheMax st) (_prefix st) (_walkerCacheGap st) (_events st) (root st) (expando st) (hostTimers st).

Definition set_validationWalker (x : W) st : Validator W VE :=
  mkValidator (_cycleEntered st) (_timeout st) (_maxTimespan st) (_timeoutId st) (_restarting st) (_errors st) (_validationEvents st) x (_workingState st) (_partDone st) (_validationStage st) (_previousChild st) (_validationStack st) (_curEl st) (_walkerCache st) (_walkerCacheMax st) (_prefix st) (_walkerCacheGap st) (_events st) (root st) (expando st) (hostTimers st).

Definition set_workingState (x : WorkingState) st : Validator W VE :=
  mkValidator (_cycleEntered st) (_timeout st) (_maxTimespan st) (_timeoutId st) (_restarting st) (_errors st) (_validationEvents st) (_validationWalker st) x (_partDone st) (_validationStage st) (_previousChild st) (_validationStack st) (_curEl st) (_walkerCache st) (_walkerCacheMax st) (_prefix st) (_walkerCacheGap st) (_events st) (root st) (expando st) (hostTimers st).

Definition set_partDone (x : Q) st : Validator W VE :=
  mkValidator (_cycleEntered st) (_timeout st) (_maxTimespan st) (_timeoutId st) (_restarting st) (_errors st) (_validationEvents st) (_validationWalker st) (_workingState st) x (_validationStage st) (_previousChild st) (_validationStack st) (_curEl st) (_walkerCache st) (_walkerCacheMax st) (_prefix st) (_walkerCacheGap st) (_events st) (root st) (expando st) (hostTimers st).

Definition set_validationStage (x : Stage) st : Validator W VE :=
  mkValidator (_cycleEntered st) (_timeout st) (_maxTimespan st) (_timeoutId st) (_restarting st) (_errors st) (_validationEvents st) (_validationWalker st) (_workingState st) (_partDone st) x (_previousChild st) (_validationStack st) (_curEl st) (_walkerCache st) (_walkerCacheMax st) (_prefix st) (_walkerCacheGap st) (_events st) (root st) (expando st) (hostTimers st).

Definition set_previousChild (x : option Path) st : Validator W VE :=
  mkValidator (_cycleEntered st) (_timeout st) (_maxTimespan st) (_timeoutId st) (_restarting st) (_errors st) (_validationEvents st) (_validationWalker st) (_workingState st) (_partDone st) (_validationStage st) x (_validationStack st) (_curEl st) (_walkerCache st) (_walkerCacheMax st) (_prefix st) (_walkerCacheGap st) (_events st) (root st) (expando st) (hostTimers st).

Definition set_validationStack (x : list ProgressState) st : Validator W VE :=
  mkValidator (_cycleEntered st) (_timeout st) (_maxTimespan st) (_timeoutId st) (_restarting st) (_errors st) (_validationEvents st) (_validationWalker st) (_workingState st) (_partDone st) (_validationStage st) (_previousChild st) x (_curEl st) (_walkerCache st) (_walkerCacheMax st) (_prefix st) (_walkerCacheGap st) (_events st) (root st) (expando st) (hostTimers st).

Definition set_curEl (x : Path) st : Validator W VE :=
  mkValidator (_cycleEntered st) (_timeout st) (_maxTimespan st) (_timeoutId st) (_restarting st) (_errors st) (_validationEvents st) (_validationWalker st) (_workingState st) (_partDone st) (_validationStage st) (_previousChild st) (_validationStack st) x (_walkerCache st) (_walkerCacheMax st) (_prefix st) (_walkerCacheGap st) (_events st) (root st) (expando st) (hostTimers st).

Definition set_walkerCache (x : gmap Z W) st : Validator W VE :=
  mkValidator (_cycleEntered st) (_timeout st) (_maxTimespan st) (_timeoutId st) (_restarting st) (_errors st) (_validationEvents st) (_validationWalker st) (_workingState st) (_partDone st) (_validationStage st) (_previousChild st) (_validationStack st) (_curEl st) x (_walkerCacheMax st) (_prefix st) (_walkerCacheGap st) (_events st) (root st) (expando st) (hostTimers st).

Definition set_walkerCacheMax (x : Z) st : Validator W VE :=
  mkValidator (_cycleEntered st) (_timeout st) (_maxTimespan st) (_timeoutId st) (_restarting st) (_errors st) (_validationEvents st) (_validationWalker st) (_workingState st) (_partDone st) (_validationStage st) (_previousChild st) (_validationStack st) (_curEl st) (_walkerCache st) x (_prefix st) (_walkerCacheGap st) (_events st) (root st) (expando st) (hostTimers st).

Definition set_prefix (x : string) st : Validator W VE :=
  mkValidator (_cycleEntered st) (_timeout st) (_maxTimespan st) (_timeoutId st) (_restarting st) (_errors st) (_validationEvents st) (_validationWalker st) (_workingState st) (_partDone st) (_validationStage st) (_previousChild st) (_validationStack st) (_curEl st) (_walkerCache st) (_walkerCacheMax st) x (_walkerCacheGap st) (_events st) (root st) (expando st) (hostTimers st).

Definition set_walkerCacheGap (x : Z) st : Validator W VE :=
  mkValidator (_cycleEntered st) (_timeout st) (_maxTimespan st) (_timeoutId st) (_restarting st) (_errors st) (_validationEvents st) (_validationWalker st) (_workingState st) (_partDone st) (_validationStage st) (_previousChild st) (_validationStack st) (_curEl st) (_walkerCache st) (_walkerCacheMax st) (_prefix st) x (_events st) (root st) (expando st) (hostTimers st).

Definition set_events (x : list (Notification VE)) st : Validator W VE :=
  mkValidator (_cycleEntered st) (_timeout st) (_maxTimespan st) (_timeoutId st) (_restarting st) (_errors st) (_validationEvents st) (_validationWalker st) (_workingState st) (_partDone st) (_validationStage st) (_previousChild st) (_validationStack st) (_curEl st) (_walkerCache st) (_walkerCacheMax st) (_prefix st) (_walkerCacheGap st) x (root st) (expando st) (hostTimers st).

Definition set_root (x : Node) st : Validator W VE :=
  mkValidator (_cycleEntered st) (_timeout st) (_maxTimespan st) (_timeoutId st) (_restarting st) (_errors st) (_validationEvents st) (_validationWalker st) (_workingState st) (_partDone st) (_validationStage st) (_previousChild st) (_validationStack st) (_curEl st) (_walkerCache st) (_walkerCacheMax st) (_prefix st) (_walkerCacheGap st) (_events st) x (expando st) (hostTimers st).

Definition set_expando (x : gmap (NodeRef * string) PropVal) st : Validator W VE :=
  mkValidator (_cycleEntered st) (_timeout st) (_maxTimespan st) (_timeoutId st) (_restarting st) (_errors st) (_validationEvents st) (_validationWalker st) (_workingState st) (_partDone st) (_validationStage st) (_previousChild st) (_validationStack st) (_curEl st) (_walkerCache st) (_walkerCacheMax st) (_prefix st) (_walkerCacheGap st) (_events st) (root st) x (hostTimers st).

Definition set_hostTimers (x : nat) st : Validator W VE :=
  mkValidator (_cycleEntered st) (_timeout st) (_maxTimespan st) (_timeoutId st) (_restarting st) (_errors st) (_validationEvents st) (_validationWalker st) (_workingState st) (_partDone st) (_validationStage st) (_previousChild st) (_validationStack st) (_curEl st) (_walkerCache st) (_walkerCacheMax st) (_prefix st) (_walkerCacheGap st) (_events st) (root st) (expando st) x.

End Setters.

(** ** Computations over the validator state *)

Section Monad.
Context {W VE : Type}.

Definition M (A : Type) : Type :=
  Validator W VE -> Outcome A * Validator W VE.

Definition ret {A} (a : A) : M A := fun st => (Ret a, st).

Definition bind {A B} (m : M A) (f : A -> M B) : M B :=
  fun st =>
    match m st with
    | (Ret a, st') => f a st'
    | (Throw e, st') => (Throw e, st')
    | (OutOfFuel, st') => (OutOfFuel, st')
    end.

Definition throw {A} (e : Exn) : M A := fun st => (Throw e, st).
Definition outOfFuel {A} : M A := fun st => (OutOfFuel, st).
Definition gets {A} (f : Validator W VE -> A) : M A := fun st => (Ret (f st), st).
Definition modify (f : Validator W VE -> Validator W VE) : M unit :=
  fun st => (Ret tt, f st).
End Monad.

Notation "'do' x <- m ; k" := (bind m (fun x => k))
  (at level 10, x name, m at level 100, k at level 200, only parsing).
Notation "m ;; k" := (bind m (fun _ => k))
  (at level 100, k at level 200, right associativity, only parsing).

(** ** The validator *)

Definition DEFAULT_PREFIX : string := "salveDom".

(** [attr.name.lastIndexOf(s, 0) === 0] *)
Definition startsWith (s name : string) : bool := String.prefix s name.

(** [name.slice(n)] *)
Definition slice (n : nat) (name : string) : string :=
  String.substring n (String.length name - n) name.

(** [textAccumulator.join("")] *)
Definition join (parts : list string) : string :=
  fold_right String.append EmptyString parts.

Section Validator.
Context {W VE PE : Type} `{G : Salve W VE PE}.

Abbreviation State := (Validator W VE).
Abbreviation Comp := (@M W VE).

Implicit Type st : State.

(** Walkers are values, so a clone is the walker itself. *)
Definition clone (w : W) : W := w.

(** [isPossibleDueToWildcard]: the loop over [walker.possible().toArray()]. *)
Fixpoint wildcardScan (evs : list PE) (eventName ns name : string)
         (matched : bool) : bool :=
  match evs with
  | [] => matched
  | ev :: rest =>
      if negb (String.eqb (peName ev) eventName)
      then wildcardScan rest eventName ns name matched
      else
        let matches := peMatch ev ns name in
        if matches && negb (peWildcardMatch ev ns name) then false
        else wildcardScan rest eventName ns name (matched || matches)
  end.

Definition isPossibleDueToWildcard (walker : W) (eventName ns name : string)
  : bool :=
  wildcardScan (possible walker) eventName ns name false.

Definition makeKey st (key : CustomNodeProperty) : string :=
  _prefix st +:+ keyName key.

Definition getNodeProperty st (n : NodeRef) (key : CustomNodeProperty)
  : option PropVal :=
  expando st !! (n, makeKey st key).

Definition _setNodeProperty (n : NodeRef) (key : CustomNodeProperty)
           (value : PropVal) : Comp unit :=
  modify (fun st => set_expando (<[(n, makeKey st key) := value]> (expando st)) st).

Definition emit (n : Notification VE) : Comp unit :=
  modify (fun st => set_events (_events st ++ [n]) st).

Definition _setWorkingState (newState : WorkingState) (newDone : Q)
  : Comp unit :=
  fun st =>
    let c1 := negb (bool_decide (_workingState st = newState)) in
    let st1 := if c1 then set_workingState newState st else st in
    let c2 := negb (Qeq_bool (_partDone st1) newDone) in
    let st2 := if c2 then set_partDone newDone st1 else st1 in
    if c1 || c2
    then emit (N_state_update newState newDone) st2
    else (Ret tt, st2).

Definition _stop (state : option WorkingState) : Comp unit :=
  modify (set_timeoutId None) ;;
  match state with
  | None =>
      do ws <- gets _workingState;
      if bool_decide (ws = WORKING)
      then do done <- gets _partDone; _setWorkingState INCOMPLETE done
      else ret tt
  | Some s =>
      do done <- gets _partDone; _setWorkingState s done
  end.

Definition stop : Comp unit := _stop None.

(** [setTimeout]: the host hands out a new timer. *)
Definition setTimeout : Comp nat :=
  do n <- gets hostTimers;
  modify (set_hostTimers (S n)) ;;
  ret n.

Definition start : Comp unit :=
  do tid <- gets _timeoutId;
  (match tid with
   | Some _ => _stop (Some WORKING)
   | None => ret tt
   end) ;;
  do n <- setTimeout;
  modify (set_timeoutId (Some n)).

Definition _processError (e : ErrorData VE) : Comp unit :=
  modify (fun st => set_errors (_errors st ++ [e]) st) ;;
  emit (N_error e).

Fixpoint _processEventResult (results : list VE) (n : option NodeRef)
         (ix : option nat) : Comp unit :=
  match results with
  | [] => ret tt
  | result :: rest =>
      _processError (mkErrorData result n ix) ;;
      _processEventResult rest n ix
  end.

(** [walker] is a reference in the source; the walker after the event is
    returned.  The test on [typeof ix] never holds for a number. *)
Definition _fireAndProcessEvent (walker : W) (event : Event)
           (el : option NodeRef) (ix : option nat) : Comp W :=
  modify (fun st => set_validationEvents (_validationEvents st ++ [event]) st) ;;
  let (walker', eventResult) := fireEvent walker event in
  match eventResult with
  | Some errs => _processEventResult errs el ix ;; ret walker'
  | None => ret walker'
  end.

Definition _setPossibleDueToWildcard (n : NodeRef) (walker : W)
           (eventName ns name : string) : Comp unit :=
  do previous <- gets (fun st => getNodeProperty st n PossibleDueToWildcard);
  let possible := isPossibleDueToWildcard walker eventName ns name in
  _setNodeProperty n PossibleDueToWildcard (PBool possible) ;;
  match previous with
  | Some (PBool b) =>
      if Bool.eqb b possible then ret tt
      else emit (N_possible_due_to_wildcard_change n)
  | _ => emit (N_possible_due_to_wildcard_change n)
  end.

Definition _fireAttributeNameEvent (walker : W) (el : Path)
           (attrRef : NodeRef) (attr : Attr) : Comp (W * bool) :=
  let attrName := attr_name attr in
  match resolveName walker attrName true with
  | None =>
      _processError
        (mkErrorData
           (mkValidationError ("cannot resolve attribute name " +:+ attrName))
           (Some attrRef) (Some 0%nat)) ;;
      ret (walker, false)
  | Some ename =>
      _setPossibleDueToWildcard attrRef walker "attributeName"
                                (ename_ns ename) (ename_name ename) ;;
      do walker' <- _fireAndProcessEvent
                      walker (AttributeName (ename_ns ename) (ename_name ename))
                      (Some attrRef) (Some 0%nat);
      ret (walker', true)
  end.

Fixpoint fireAttributeLoop (walker : W) (el : Path) (i : nat)
         (attrs : list Attr) : Comp W :=
  match attrs with
  | [] => ret walker
  | attr :: rest =>
      if String.eqb (attr_name attr) "xmlns" || startsWith "xmlns" (attr_name attr)
      then fireAttributeLoop walker el (S i) rest
      else
        do r <- _fireAttributeNameEvent walker el (AttrAt el i) attr;
        let (walker1, fired) := r in
        do walker2 <-
           (if fired
            then _fireAndProcessEvent walker1 (AttributeValue (attr_value attr))
                                      (Some (AttrAt el i)) (Some 0%nat)
            else ret walker1);
        fireAttributeLoop walker2 el (S i) rest
  end.

Definition _fireAttributeEvents (walker : W) (el : Path) (attrs : list Attr)
  : Comp W :=
  fireAttributeLoop walker el 0%nat attrs.

(** The default implementation does nothing. *)
Definition _runDocumentValidation : Comp unit := ret tt.

(** In [_cycle] the variable [walker] is [this._validationWalker] itself:
    what is fired on it is fired on the walker of the validator. *)
Definition onLiveWalker (f : W -> Comp W) : Comp unit :=
  do w <- gets _validationWalker;
  do w' <- f w;
  modify (set_validationWalker w').

Definition eventsLength : Comp nat :=
  gets (fun st => length (_validationEvents st)).

(** The [xmlns] loop of the START_TAG stage. *)
Fixpoint definePrefixLoop (curEl : Path) (attrs : list Attr) : Comp unit :=
  match attrs with
  | [] => ret tt
  | attr :: rest =>
      (if String.eqb (attr_name attr) "xmlns"
       then onLiveWalker (fun w =>
              _fireAndProcessEvent w (DefinePrefix "" (attr_value attr))
                                   (Some (NodeAt curEl)) (Some 0%nat))
       else if startsWith "xmlns:" (attr_name attr)
       then onLiveWalker (fun w =>
              _fireAndProcessEvent
                w (DefinePrefix (slice 6 (attr_name attr)) (attr_value attr))
                (Some (NodeAt curEl)) (Some 0%nat))
       else ret tt) ;;
      definePrefixLoop curEl rest
  end.

(** [case Stage.START_TAG] of [_cycle]. *)
Definition stageStartTag (curPortion : Q) : Comp bool :=
  do curEl <- gets _curEl;
  do done <- gets _partDone;
  modify (fun st => set_validationStack
                      (mkProgressState done curPortion :: _validationStack st) st) ;;
  onLiveWalker (fun w => _fireAndProcessEvent w EnterContext
                                              (Some (NodeAt curEl)) (Some 0%nat)) ;;
  do doc <- gets root;
  match nodeAt doc curEl with
  | Some (Element tagName attrs _) =>
      definePrefixLoop curEl attrs ;;
      match curEl with
      | [] => throw TypeError
      | curElIndex :: parent =>
          do walker <- gets _validationWalker;
          do ename <-
             match resolveName walker tagName false with
             | Some ename => ret ename
             | None =>
                 _processEventResult
                   [mkValidationError ("cannot resolve the name " +:+ tagName)]
                   (Some (NodeAt parent)) (Some curElIndex) ;;
                 ret (mkEName "" tagName)
             end;
          _setPossibleDueToWildcard (NodeAt curEl) walker "enterStartTag"
                                    (ename_ns ename) (ename_name ename) ;;
          onLiveWalker (fun w =>
            _fireAndProcessEvent w (EnterStartTag (ename_ns ename) (ename_name ename))
                                 (Some (NodeAt parent)) (Some curElIndex)) ;;
          do n1 <- eventsLength;
          _setNodeProperty (NodeAt curEl) EventIndexBeforeAttributes (PNum n1) ;;
          onLiveWalker (fun w => _fireAttributeEvents w curEl attrs) ;;
          do n2 <- eventsLength;
          _setNodeProperty (NodeAt curEl) EventIndexAfterAttributes (PNum n2) ;;
          onLiveWalker (fun w => _fireAndProcessEvent w LeaveStartTag
                                                      (Some (NodeAt curEl)) (Some 0%nat)) ;;
          modify (set_validationStage CONTENTS) ;;
          do n3 <- eventsLength;
          _setNodeProperty (NodeAt curEl) EventIndexAfterStart (PNum n3) ;;
          modify (fun st => set_cycleEntered (_cycleEntered st - 1) st) ;;
          ret true
      end
  | _ => throw TypeError
  end.

(** [flushText] of the CONTENTS stage.  The text event is fired on the walker
    of the validator; [accNode] is the first text node accumulated. *)
Definition flushText (acc : list string) (accNode : option Path) : Comp unit :=
  match acc with
  | [] => ret tt
  | _ :: _ =>
      let event := TextEvent (join acc) in
      do w <- gets _validationWalker;
      let (w', eventResult) := fireEvent w event in
      modify (set_validationWalker w') ;;
      match eventResult with
      | Some errs =>
          match accNode with
          | Some (i :: parent) =>
              _processEventResult errs (Some (NodeAt parent)) (Some i)
          | _ => throw TypeError
          end
      | None => ret tt
      end
  end.

(** How the CONTENTS stage ends: with an element to enter (and the portion it
    covers) or with the end of the children. *)
Inductive ContentsExit := ToStartTag (newPortion : Q) | ToEndTag.

(** The [while (node !== null)] loop: [rest] are the siblings from [node] on,
    [i] is the position of [node] under [parent]. *)
Fixpoint contentsLoop (curPortion : Q) (parent : Path) (i : nat) (rest : list Node)
         (acc : list string) (accNode : option Path) : Comp ContentsExit :=
  match rest with
  | [] =>
      flushText acc accNode ;;
      modify (set_validationStage END_TAG) ;;
      ret ToEndTag
  | n :: rest' =>
      match n with
      | Text data =>
          contentsLoop curPortion parent (S i) rest' (acc ++ [data])
                       (match accNode with
                        | Some _ => accNode
                        | None => Some (i :: parent)
                        end)
      | Element _ _ _ =>
          flushText acc accNode ;;
          do curEl <- gets _curEl;
          do doc <- gets root;
          let count := match nodeAt doc curEl with
                       | Some c => childElementCount c
                       | None => 0%nat
                       end in
          let portion' := (curPortion / inject_Z (Z.of_nat count))%Q in
          modify (set_curEl (i :: parent)) ;;
          modify (set_validationStage START_TAG) ;;
          modify (set_previousChild None) ;;
          ret (ToStartTag portion')
      | Comment _ => contentsLoop curPortion parent (S i) rest' acc accNode
      | _ => throw (UnexpectedNodeType (nodeType n))
      end
  end.

(** [case Stage.CONTENTS] of [_cycle]. *)
Definition stageContents (curPortion : Q) : Comp ContentsExit :=
  do curEl <- gets _curEl;
  do previousChild <- gets _previousChild;
  do doc <- gets root;
  match previousChild with
  | None => contentsLoop curPortion curEl 0 (childrenAt doc curEl) [] None
  | Some [] => contentsLoop curPortion [] 0 [] [] None
  | Some (i :: parent) =>
      contentsLoop curPortion parent (S i) (drop (S i) (childrenAt doc parent)) [] None
  end.

(** [case Stage.END_TAG] of [_cycle], at the root: the end of the pass. *)
Definition finishDocument : Comp bool :=
  do doc <- gets root;
  do w <- gets _validationWalker;
  let (w', eventResult) := walkerEnd w in
  modify (set_validationWalker w') ;;
  (match eventResult with
   | Some errs =>
       _processEventResult errs (Some (NodeAt []))
                           (Some (length (childrenAt doc [])))
   | None => ret tt
   end) ;;
  _runDocumentValidation ;;
  do n <- eventsLength;
  _setNodeProperty (NodeAt []) EventIndexAfter (PNum n) ;;
  modify (set_partDone 1%Q) ;;
  do errs <- gets _errors;
  _stop (Some (if (0 <? length errs)%nat then INVALID else VALID)) ;;
  modify (fun st => set_cycleEntered (_cycleEntered st - 1) st) ;;
  ret false.

(** [case Stage.END_TAG] of [_cycle], below the root: the end tag of [curEl],
    whose parent is [parent]. *)
Definition closeElement (curPortion : Q) (curEl parent : Path) : Comp bool :=
  do doc <- gets root;
  match nodeAt doc curEl with
  | Some (Element tagName _ cs) =>
      do walker <- gets _validationWalker;
      let ename := match resolveName walker tagName false with
                   | Some ename => ename
                   | None => mkEName "" tagName
                   end in
      onLiveWalker (fun w =>
        _fireAndProcessEvent w (EndTag (ename_ns ename) (ename_name ename))
                             (Some (NodeAt curEl)) (Some (length cs))) ;;
      onLiveWalker (fun w =>
        _fireAndProcessEvent w LeaveContext
                             (Some (NodeAt curEl)) (Some (length cs))) ;;
      modify (set_previousChild (Some curEl)) ;;
      modify (set_curEl parent) ;;
      do done <- gets _partDone;
      do nextDone <-
         match parent with
         | [] => ret done
         | _ :: _ =>
             do stack <- gets _validationStack;
             match stack with
             | _ :: first :: below =>
                 let nextDone := (partDone first + curPortion)%Q in
                 modify (set_validationStack
                           (mkProgressState nextDone (portion first) :: below)) ;;
                 ret nextDone
             | _ => modify (set_validationStack (tail stack)) ;; throw TypeError
             end
         end;
      _setWorkingState WORKING nextDone ;;
      do n <- eventsLength;
      _setNodeProperty (NodeAt curEl) EventIndexAfter (PNum n) ;;
      modify (set_validationStage CONTENTS) ;;
      modify (fun st => set_cycleEntered (_cycleEntered st - 1) st) ;;
      ret true
  | _ => throw TypeError
  end.

Definition stageEndTag (curPortion : Q) : Comp bool :=
  do curEl <- gets _curEl;
  match curEl with
  | [] => finishDocument
  | _ :: parent => closeElement curPortion curEl parent
  end.

(** [_cycle].  The [stage_change] loop is unrolled: START_TAG and END_TAG
    return, CONTENTS continues with one of them. *)
Definition _cycle : Comp bool :=
  modify (set_restarting false) ;;
  do entered <- gets _cycleEntered;
  if 0 <? entered then throw CycleReentered
  else if entered <? 0 then throw CycleEnteredNegative
  else
    modify (set_cycleEntered (entered + 1)) ;;
    do stack <- gets _validationStack;
    match stack with
    | [] => throw TypeError
    | top :: _ =>
        let curPortion := portion top in
        do stage <- gets _validationStage;
        match stage with
        | START_TAG => stageStartTag curPortion
        | CONTENTS =>
            do exit <- stageContents curPortion;
            match exit with
            | ToStartTag portion' => stageStartTag portion'
            | ToEndTag => stageEndTag curPortion
            end
        | END_TAG => stageEndTag curPortion
        end
    end.

(** [_work] with the readings of [Date.now()] given: [startDate] first, then
    one reading per turn of the loop, taken only when [_maxTimespan > 0]. *)
Fixpoint workLoop (fuel : nat) (startDate : Z) (clock : list Z) : Comp bool :=
  match fuel with
  | O => outOfFuel
  | S fuel' =>
      do maxTimespan <- gets _maxTimespan;
      if 0 <? maxTimespan
      then match clock with
           | [] => outOfFuel
           | now :: clock' =>
               if maxTimespan <=? now - startDate then ret true
               else do r <- _cycle;
                    if r then workLoop fuel' startDate clock' else ret false
           end
      else do r <- _cycle;
           if r then workLoop fuel' startDate clock else ret false
  end.

Definition _work (fuel : nat) (clock : list Z) : Comp bool :=
  match clock with
  | [] => outOfFuel
  | startDate :: clock' => workLoop fuel startDate clock'
  end.

(** The traversal steps of a whole pass: [_cycle] until it returns [false].
    This is the sequence the ticks of [_work] run, a few steps at a time. *)
Fixpoint runToCompletion (fuel : nat) : Comp unit :=
  match fuel with
  | O => outOfFuel
  | S fuel' =>
      do r <- _cycle;
      if r then runToCompletion fuel' else ret tt
  end.

(** What [_validateUpTo] waits for: nothing, or a property of a node. *)
Inductive UpTo :=
| UpToNothing
| UpToProperty (toInspect : NodeRef) (dataKey : CustomNodeProperty).

(** The test on [attributes] that opens [_validateUpTo] and [_getWalkerAt].
    An attribute node has no child nodes. *)
Definition attributesCheck (doc : Node) (container : NodeRef) (index : Z)
           (attributes : bool) : Outcome unit :=
  if attributes
  then match container with
       | NodeAt p =>
           match nodeAt doc p with
           | Some n =>
               match childAt (childNodes n) index with
               | Some (_, c) => if isElement c then Ret tt else Throw NotAnElementNode
               | None => Throw TypeError
               end
           | None => Throw TypeError
           end
       | AttrAt _ _ => Throw TypeError
       end
  else Ret tt.

Definition isRoot (container : NodeRef) : bool :=
  bool_decide (container = NodeAt []).

(** [_validateUpTo], the case of an element, a document or a fragment;
    [cs] are the child nodes of the container [p]. *)
Definition upToInContainer (p : Path) (cs : list Node) (index : Z)
           (attributes : bool) : Outcome UpTo :=
  let node := childAt cs index in
  let prev := match node with
              | None => lastElementChild cs
              | Some (i, _) => previousElementSibling cs i
              end in
  match prev with
  | Some j => Ret (UpToProperty (NodeAt (j :: p)) EventIndexAfter)
  | None =>
      if attributes
      then match node with
           | Some (i, _) =>
               Ret (UpToProperty (NodeAt (i :: p)) EventIndexAfterAttributes)
           | None => Throw TypeError
           end
      else Ret (UpToProperty (NodeAt p) EventIndexAfterStart)
  end.

(** The part of [_validateUpTo] that chooses [toInspect] and [dataKey]. *)
Definition upToTarget (doc : Node) (container : NodeRef) (index : Z)
           (attributes : bool) : Outcome UpTo :=
  if isRoot container && (index <=? 0)
  then
    if attributes
    then match childAt (childNodes doc) index with
         | Some (i, _) => Ret (UpToProperty (NodeAt [i]) EventIndexAfterAttributes)
         | None => Throw TypeError
         end
    else if index =? 0 then Ret UpToNothing
         else Ret (UpToProperty container EventIndexAfter)
  else
    match container with
    | AttrAt owner _ => Ret (UpToProperty (NodeAt owner) EventIndexBeforeAttributes)
    | NodeAt p =>
        match nodeAt doc p with
        | Some (Text _) =>
            match p with
            | i :: parent =>
                match previousElementSibling (childrenAt doc parent) i with
                | Some j => Ret (UpToProperty (NodeAt (j :: parent)) EventIndexAfter)
                | None => Ret (UpToProperty (NodeAt parent) EventIndexAfterStart)
                end
            | [] => Throw TypeError
            end
        | Some (Element _ _ cs) => upToInContainer p cs index attributes
        | Some (Document cs) => upToInContainer p cs index attributes
        | Some (DocumentFragment cs) => upToInContainer p cs index attributes
        | Some n => Throw (UnexpectedNodeType (nodeType n))
        | None => Throw TypeError
        end
    end.

Definition liftOutcome {A} (o : Outcome A) : Comp A := fun st => (o, st).

(** [while (this.getNodeProperty(toInspect, dataKey) === undefined) this._cycle()] *)
Fixpoint validateLoop (fuel : nat) (toInspect : NodeRef)
         (dataKey : CustomNodeProperty) : Comp unit :=
  do v <- gets (fun st => getNodeProperty st toInspect dataKey);
  match v with
  | Some _ => ret tt
  | None =>
      match fuel with
      | O => outOfFuel
      | S fuel' => _cycle ;; validateLoop fuel' toInspect dataKey
      end
  end.

Definition _validateUpTo (fuel : nat) (container : NodeRef) (index : Z)
           (attributes : bool) : Comp unit :=
  do doc <- gets root;
  liftOutcome (attributesCheck doc container index attributes) ;;
  do target <- liftOutcome (upToTarget doc container index attributes);
  match target with
  | UpToNothing => ret tt
  | UpToProperty toInspect dataKey => validateLoop fuel toInspect dataKey
  end.

(** The backward scan of [readyWalker]:
    [while (!walker && --searchIx >= 0) walker = cache[searchIx]]. *)
Fixpoint scanCache (cache : gmap Z W) (searchIx : nat) : option W * Z :=
  match searchIx with
  | O => (None, -1)
  | S k =>
      match cache !! Z.of_nat k with
      | Some w => (Some w, Z.of_nat k)
      | None => scanCache cache k
      end
  end.

(** [this._validationEvents[ix]] *)
Definition eventAt (events : list Event) (ix : Z) : option Event :=
  if ix <? 0 then None else events !! Z.to_nat ix.

(** [for (let ix = searchIx; ix < eventIndex; ++ix) walker.fireEvent(events[ix])],
    [n] being the number of turns. *)
Fixpoint replayLoop (events : list Event) (walker : W) (ix : Z) (n : nat)
  : Outcome W :=
  match n with
  | O => Ret walker
  | S n' =>
      match eventAt events ix with
      | Some ev => replayLoop events (fst (fireEvent walker ev)) (ix + 1) n'
      | None => Throw TypeError
      end
  end.

(** The walker [readyWalker] starts from and the index it stands at: the
    cached walker found by the search, or a new walker at index 0. *)
Definition findBase (cache : gmap Z W) (max : Z) (n : nat) : W * Z :=
  let (found, searchIx) :=
    if max <=? Z.of_nat n then (cache !! max, max)
    else scanCache cache n in
  match found with
  | Some w => (clone w, searchIx)
  | None => (newWalker, 0)
  end.

Definition readyWalker (eventIndex : option PropVal) : Comp W :=
  match eventIndex with
  | None => throw EventIndexException
  | Some (PBool _) => throw TypeError
  | Some (PNum n) =>
      let eventIndex := Z.of_nat n in
      do cache <- gets _walkerCache;
      do max <- gets _walkerCacheMax;
      match cache !! eventIndex with
      | Some walker => ret walker
      | None =>
          let (walker, searchIx) := findBase cache max n in
          do events <- gets _validationEvents;
          do walker <- liftOutcome
                         (replayLoop events walker searchIx
                                     (Z.to_nat (eventIndex - searchIx)));
          do gap <- gets _walkerCacheGap;
          (if gap <=? eventIndex - searchIx
           then modify (fun st => set_walkerCache (<[eventIndex := walker]> (_walkerCache st)) st) ;;
                modify (set_walkerCacheMax (Z.max eventIndex max))
           else ret tt) ;;
          ret walker
      end
  end.

(** [fireTextEvent] of [_getWalkerAt]; the result of [fireEvent] is dropped. *)
Definition fireTextEvent (walker : W) (data : string) : W :=
  fst (fireEvent walker (TextEvent data)).

Definition isNamespaceAttr (attr : Attr) : bool :=
  String.eqb (attr_name attr) "xmlns"
  || bool_decide (attr_prefix attr = Some "xmlns").

(** [_getWalkerAt], the case of an attribute node. *)
Definition walkerAtAttribute (doc : Node) (owner : Path) (ix : nat) : Comp W :=
  do ei <- gets (fun st => getNodeProperty st (NodeAt owner)
                                           EventIndexBeforeAttributes);
  do walker <- readyWalker ei;
  match attrAt doc owner ix with
  | Some attr =>
      if isNamespaceAttr attr then ret walker
      else
        do r <- _fireAttributeNameEvent (clone walker) owner (AttrAt owner ix) attr;
        ret (fst r)
  | None => throw TypeError
  end.

(** [_getWalkerAt], the case of a text node, the child [i] of [parent]. *)
Definition walkerInText (doc : Node) (i : nat) (parent : Path) (data : string)
           (index : Z) : Comp W :=
  do ei <- gets (fun st =>
    match previousElementSibling (childrenAt doc parent) i with
    | Some j => getNodeProperty st (NodeAt (j :: parent)) EventIndexAfter
    | None => getNodeProperty st (NodeAt parent) EventIndexAfterStart
    end);
  do walker <- readyWalker ei;
  if 0 <? index
  then ret (fireTextEvent (clone walker) data)
  else ret walker.

(** [_getWalkerAt], the case of an element, a document or a fragment. *)
Definition walkerInContainer (p : Path) (cs : list Node) (index : Z)
           (attributes : bool) : Comp W :=
  let node := childAt cs index in
  let prev := match node with
              | None => lastElementChild cs
              | Some (i, _) => previousElementSibling cs i
              end in
  do ei <- gets (fun st =>
    if negb attributes
    then match prev with
         | Some j => getNodeProperty st (NodeAt (j :: p)) EventIndexAfter
         | None => getNodeProperty st (NodeAt p) EventIndexAfterStart
         end
    else match node with
         | Some (i, _) =>
             getNodeProperty st (NodeAt (i :: p)) EventIndexAfterAttributes
         | None => None
         end);
  do walker <- readyWalker ei;
  if negb attributes
  then
    match node with
    | Some (S k, _) =>
        if bool_decide (prev = Some k) then ret walker
        else match cs !! k with
             | Some (Text data) => ret (fireTextEvent (clone walker) data)
             | _ => ret walker
             end
    | _ => ret walker
    end
  else ret walker.

(** The part of [_getWalkerAt] that follows the call of [_validateUpTo]. *)
Definition walkerAtLocation (container : NodeRef) (index : Z) (attributes : bool)
  : Comp W :=
  do doc <- gets root;
  if isRoot container && (index <=? 0) && negb attributes
  then
    if index =? 0 then ret newWalker
    else gets _validationWalker
  else
    match container with
    | AttrAt owner ix => walkerAtAttribute doc owner ix
    | NodeAt p =>
        match nodeAt doc p with
        | Some (Text data) =>
            match p with
            | i :: parent => walkerInText doc i parent data index
            | [] => throw TypeError
            end
        | Some (Element _ _ cs) => walkerInContainer p cs index attributes
        | Some (Document cs) => walkerInContainer p cs index attributes
        | Some (DocumentFragment cs) => walkerInContainer p cs index attributes
        | Some n => throw (UnexpectedNodeType (nodeType n))
        | None => throw TypeError
        end
    end.

Definition _getWalkerAt (fuel : nat) (container : NodeRef) (index : Z)
           (attributes : bool) : Comp W :=
  do doc <- gets root;
  liftOutcome (attributesCheck doc container index attributes) ;;
  _validateUpTo fuel container index attributes ;;
  walkerAtLocation container index attributes.

Definition possibleAt (fuel : nat) (container : NodeRef) (index : Z)
           (attributes : bool) : Comp (list PE) :=
  do walker <- _getWalkerAt fuel container index attributes;
  ret (possible walker).

(** The constructor.  [store] holds the expando properties already on the
    nodes of the tree. *)
Definition checkOption (key : OptionKey) (value : option Z) (default : Z)
  : Outcome Z :=
  match value with
  | None => Ret default
  | Some v => if v <? 0 then Throw (NegativeOption key) else Ret v
  end.

Definition newValidator (rootNode : Node)
           (store : gmap (NodeRef * string) PropVal) (options : Options)
  : Outcome State :=
  match checkOption K_timeout (opt_timeout options) 200 with
  | Ret timeout =>
      match checkOption K_maxTimespan (opt_maxTimespan options) 100 with
      | Ret maxTimespan =>
          match checkOption K_walkerCacheGap (opt_walkerCacheGap options) 100 with
          | Ret walkerCacheGap =>
              let prefix := match opt_prefix options with
                            | Some p => if String.eqb p "" then DEFAULT_PREFIX else p
                            | None => DEFAULT_PREFIX
                            end in
              let st0 :=
                mkValidator 0 timeout maxTimespan None false [] [] newWalker
                            INCOMPLETE 0%Q CONTENTS None [mkProgressState 0%Q 1%Q] []
                            ∅ (-1) prefix walkerCacheGap [] rootNode store 0%nat in
              match (_setNodeProperty (NodeAt []) EventIndexAfterStart (PNum 0) ;;
                     _setWorkingState INCOMPLETE 0%Q ;;
                     modify (set_validationWalker newWalker)) st0 with
              | (Ret _, st) => Ret st
              | (Throw e, _) => Throw e
              | (OutOfFuel, _) => OutOfFuel
              end
          | Throw e => Throw e
          | OutOfFuel => OutOfFuel
          end
      | Throw e => Throw e
      | OutOfFuel => OutOfFuel
      end
  | Throw e => Throw e
  | OutOfFuel => OutOfFuel
  end.

(** What [root.insertBefore(clone, null)] puts under the wrapper: the node,
    or the children of a document fragment. *)
Definition inserted (n : Node) : Outcome (list Node) :=
  match n with
  | DocumentFragment cs => Ret cs
  | Document _ => Throw HierarchyRequestError
  | _ => Ret [n]
  end.

Fixpoint insertedAll (ns : list Node) : Outcome (list Node) :=
  match ns with
  | [] => Ret []
  | n :: rest =>
      match inserted n with
      | Ret l =>
          match insertedAll rest with
          | Ret l2 => Ret (l ++ l2)%list
          | other => other
          end
      | other => other
      end
  end.

Inductive ToParse := OneNode (n : Node) | ManyNodes (ns : list Node).

Definition speculativelyValidateFragment (fuel : nat) (container : NodeRef)
           (index : Z) (toParse : Node) : Comp (option (list (ErrorData VE))) :=
  if negb (isElement toParse) then throw ToParseNotElement
  else
    match newValidator toParse ∅ noOptions with
    | Ret dup =>
        do walker <- _getWalkerAt fuel container index false;
        let dup := set_validationWalker (clone walker) dup in
        match _validateUpTo fuel (NodeAt []) (Z.of_nat (length (childNodes toParse)))
                            false dup with
        | (Ret _, dup') =>
            if (0 <? length (_errors dup'))%nat then ret (Some (_errors dup'))
            else ret None
        | (Throw e, _) => throw e
        | (OutOfFuel, _) => outOfFuel
        end
    | Throw e => throw e
    | OutOfFuel => outOfFuel
    end.

Definition speculativelyValidate (fuel : nat) (container : NodeRef) (index : Z)
           (toParse : ToParse) : Comp (option (list (ErrorData VE))) :=
  do cs <- liftOutcome (match toParse with
                        | OneNode n => inserted n
                        | ManyNodes ns => insertedAll ns
                        end);
  speculativelyValidateFragment fuel container index (Element "div" [] cs).

Definition sameNode (a : option NodeRef) (b : NodeRef) : bool :=
  bool_decide (a = Some b).

Definition getErrorsFor (fuel : nat) (n : NodeRef)
  : Comp (list (ErrorData VE)) :=
  match n with
  | NodeAt (i :: parent) =>
      _validateUpTo fuel (NodeAt parent) (Z.of_nat i + 1) false ;;
      do errs <- gets _errors;
      ret (List.filter (fun e => sameNode (node e) n) errs)
  | _ => throw NodeWithoutParent
  end.

End Validator.

(** ** The rest of the class: resetting, scheduling, namespaces *)

(** The names [Object.prototype] defines: an object literal finds them with
    a value that is not an array. *)
Definition objectPrototypeKeys : list string :=
  ["constructor"; "hasOwnProperty"; "isPrototypeOf"; "propertyIsEnumerable";
   "toLocaleString"; "toString"; "valueOf"; "__proto__";
   "__defineGetter__"; "__defineSetter__"; "__lookupGetter__";
   "__lookupSetter__"].

Definition inheritedKey (key : string) : bool :=
  bool_decide (key ∈ objectPrototypeKeys).

(** [let array = ret[key]; if (!array) array = ret[key] = [];
     array.push(value)] on the object literal [ret]. *)
Definition pushNamespace (ret : gmap string (list string)) (key value : string)
  : Outcome (gmap string (list string)) :=
  match ret !! key with
  | Some array => Ret (<[key := (array ++ [value])%list]> ret)
  | None =>
      if inheritedKey key then Throw TypeError
      else Ret (<[key := [value]]> ret)
  end.

(** The loop over [node.attributes] in [_process]. *)
Fixpoint processAttributes (attrs : list Attr) (ret : gmap string (list string))
  : Outcome (gmap string (list string)) :=
  match attrs with
  | [] => Ret ret
  | attr :: rest =>
      if startsWith "xmlns" (attr_name attr)
      then match pushNamespace ret (slice 6 (attr_name attr)) (attr_value attr) with
           | Ret ret' => processAttributes rest ret'
           | other => other
           end
      else processAttributes rest ret
  end.

(** [_process] of [getDocumentNamespaces], on a node that is not null.  A node
    that is not an element has no [attributes]. *)
Fixpoint _process (n : Node) (ret : gmap string (list string)) {struct n}
  : Outcome (gmap string (list string)) :=
  match n with
  | Element _ attrs cs =>
      match processAttributes attrs ret with
      | Ret ret1 =>
          (fix processChildren (cs : list Node) (ret : gmap string (list string))
             : Outcome (gmap string (list string)) :=
             match cs with
             | [] => Ret ret
             | child :: rest =>
                 match child with
                 | Element _ _ _ =>
                     match _process child ret with
                     | Ret ret' => processChildren rest ret'
                     | other => other
                     end
                 | _ => processChildren rest ret
                 end
             end) cs ret1
      | other => other
      end
  | _ => Throw TypeError
  end.

(** [_process(this.root.firstChild)] *)
Definition documentNamespaces (doc : Node) : Outcome (gmap string (list string)) :=
  match childNodes doc with
  | [] => Ret ∅
  | firstChild :: _ => _process firstChild ∅
  end.

(** [event.params[0]] *)
Definition eventName (ev : Event) : string :=
  match ev with
  | EnterContext => "enterContext"
  | LeaveContext => "leaveContext"
  | DefinePrefix _ _ => "definePrefix"
  | EnterStartTag _ _ => "enterStartTag"
  | AttributeName _ _ => "attributeName"
  | AttributeValue _ => "attributeValue"
  | LeaveStartTag => "leaveStartTag"
  | TextEvent _ => "text"
  | EndTag _ _ => "endTag"
  end.

Section ValidatorRest.
Context {W VE PE : Type} `{G : Salve W VE PE}.

Abbreviation State := (Validator W VE).
Abbreviation Comp := (@M W VE).

Implicit Type st : State.

Definition customNodeProperties : list CustomNodeProperty :=
  [EventIndexAfter; EventIndexAfterStart; EventIndexBeforeAttributes;
   EventIndexAfterAttributes; PossibleDueToWildcard].

(** [for (const key of keys) delete node[this.makeKey(key)]] *)
Fixpoint clearLoop (n : NodeRef) (keys : list CustomNodeProperty) : Comp unit :=
  match keys with
  | [] => ret tt
  | key :: rest =>
      modify (fun st => set_expando (delete (n, makeKey st key) (expando st)) st) ;;
      clearLoop n rest
  end.

Definition _clearNodeProperties (n : NodeRef) : Comp unit :=
  clearLoop n customNodeProperties.

(** [_erase(el)], [el] being the node at [p]: the loop follows
    [firstElementChild] and [nextElementSibling]. *)
Fixpoint _erase (el : Node) (p : Path) {struct el} : Comp unit :=
  _clearNodeProperties (NodeAt p) ;;
  match el with
  | Element _ _ cs | Document cs | DocumentFragment cs =>
      (fix eraseChildren (cs : list Node) (i : nat) : Comp unit :=
         match cs with
         | [] => ret tt
         | child :: rest =>
             match child with
             | Element _ _ _ => _erase child (i :: p) ;; eraseChildren rest (S i)
             | _ => eraseChildren rest (S i)
             end
         end) cs 0%nat
  | _ => ret tt
  end.

(** [_resetTo(node)]: the node is not looked at. *)
Definition _resetTo (n : NodeRef) : Comp unit :=
  do doc <- gets root;
  _erase doc [] ;;
  modify (set_validationStage CONTENTS) ;;
  modify (set_previousChild None) ;;
  modify (set_validationWalker newWalker) ;;
  modify (set_validationEvents []) ;;
  modify (set_curEl []) ;;
  modify (set_partDone 0%Q) ;;
  modify (set_errors []) ;;
  modify (set_walkerCache ∅) ;;
  modify (set_walkerCacheMax (-1)) ;;
  emit (N_reset_errors 0).

Definition restartAt (n : NodeRef) : Comp unit :=
  do restarting <- gets _restarting;
  (if negb restarting
   then modify (set_restarting true) ;; _resetTo n
   else ret tt) ;;
  start.

Definition getWorkingState : Comp (WorkingState * Q) :=
  gets (fun st => (_workingState st, _partDone st)).

(** The getter [errors]: a copy of the list. *)
Definition errors : Comp (list (ErrorData VE)) := gets _errors.

(** [_workWrapper], run by the timer [start] or a previous run has set. *)
Definition _workWrapper (fuel : nat) (clock : list Z) : Comp unit :=
  do more <- _work fuel clock;
  if more
  then do n <- setTimeout; modify (set_timeoutId (Some n))
  else ret tt.

Definition getDocumentNamespaces : Comp (gmap string (list string)) :=
  do doc <- gets root;
  liftOutcome (documentNamespaces doc).

(** [container.childNodes.length]; an attribute node has no child nodes. *)
Definition childCount (doc : Node) (container : NodeRef) : nat :=
  match container with
  | NodeAt p => length (childrenAt doc p)
  | AttrAt _ _ => 0%nat
  end.

(** The test of [possibleWhere] on the events possible at one index.  [has]
    is [EventSet.has] of the grammar engine. *)
Definition possibleHere (has : list PE -> Event -> bool) (possible : list PE)
           (event : Event) : bool :=
  if has possible event then true
  else match event with
       | EnterStartTag ns name | AttributeName ns name =>
           existsb (fun candidate =>
                      String.eqb (peName candidate) (eventName event)
                      && peMatch candidate ns name) possible
       | _ => false
       end.

(** [for (let index = 0; index <= container.childNodes.length; ++index)],
    [count] being the number of turns left. *)
Fixpoint possibleWhereLoop (has : list PE -> Event -> bool) (fuel : nat)
         (container : NodeRef) (event : Event) (count index : nat)
         (found : list nat) : Comp (list nat) :=
  match count with
  | O => ret found
  | S count' =>
      do possible <- possibleAt fuel container (Z.of_nat index) false;
      possibleWhereLoop has fuel container event count' (S index)
                        (if possibleHere has possible event
                         then (found ++ [index])%list else found)
  end.

Definition possibleWhere (has : list PE -> Event -> bool) (fuel : nat)
           (container : NodeRef) (event : Event) : Comp (list nat) :=
  do doc <- gets root;
  possibleWhereLoop has fuel container event (S (childCount doc container))
                    0%nat [].

End ValidatorRest.

(** ** A small grammar engine

    Its walkers record the events fired on them.  An element named [bad] is
    an error, a name [nope] cannot be resolved, and the end of the document
    is an error after a start tag [open]. *)
Module Toy.

Record Pattern := mkPattern {
  pat_event : string;
  pat_name : string;
  pat_wild : bool
}.

Definition fire (w : list Event) (ev : Event)
  : list Event * option (list string) :=
  ((w ++ [ev])%list,
   match ev with
   | EnterStartTag _ "bad" => Some ["unexpected element"]
   | _ => None
   end).

#[global] Instance engine : Salve (list Event) string Pattern := {|
  newWalker := [];
  fireEvent := fire;
  walkerEnd w := (w, None);
  possible w := [mkPattern "enterStartTag" "a" false;
                 mkPattern "enterStartTag" "" true;
                 mkPattern "attributeName" "" true];
  resolveName w name attr :=
    if String.eqb name "nope" then None else Some (mkEName "" name);
  peName p := pat_event p;
  peMatch p ns name := pat_wild p || String.eqb (pat_name p) name;
  peWildcardMatch p ns name := pat_wild p;
  mkValidationError s := s
|}.

Abbreviation State := (Validator (list Event) string).

(** A state to fall back on where a constructor cannot fail. *)
Definition blank (doc : Node) : State :=
  mkValidator 0 200 100 None false [] [] [] INCOMPLETE 0%Q CONTENTS None
              [mkProgressState 0%Q 1%Q] [] ∅ (-1) DEFAULT_PREFIX 100 [] doc ∅ 0%nat.

Definition fresh (doc : Node) (options : Options) : State :=
  match newValidator doc ∅ options with
  | Ret st => st
  | _ => blank doc
  end.

(** [<a x="1">hi<b/>t</a>] under a document node. *)
Definition doc1 : Node :=
  Document [Element "a" [mkAttr "x" None "1"]
                    [Text "hi"; Element "b" [] []; Text "t"]].

(** [<a><?pi?></a>] under a document node. *)
Definition docPI : Node :=
  Document [Element "a" [] [OtherNode ProcessingInstruction]].

End Toy.

(** ** Frame reasoning

    [preserves R m]: whatever [m] does, the states before and after are
    related by [R]. *)
Definition preserves {W VE A} (R : relation (Validator W VE)) (m : @M W VE A)
  : Prop :=
  forall st r st', m st = (r, st') -> R st st'.

Section PreservesRules.
Context {W VE : Type} (R : relation (Validator W VE)) `{!PreOrder R}.

Lemma preserves_ret {A} (a : A) : preserves R (ret a).
Proof. intros st r st' [= <- <-]. reflexivity. Qed.

Lemma preserves_throw {A} (e : Exn) : preserves R (@throw W VE A e).
Proof. intros st r st' [= <- <-]. reflexivity. Qed.

Lemma preserves_outOfFuel {A} : preserves R (@outOfFuel W VE A).
Proof. intros st r st' [= <- <-]. reflexivity. Qed.

Lemma preserves_gets {A} (f : Validator W VE -> A) : preserves R (gets f).
Proof. intros st r st' [= <- <-]. reflexivity. Qed.

Lemma preserves_modify (f : Validator W VE -> Validator W VE) :
  (forall st, R st (f st)) -> preserves R (modify f).
Proof. intros Hf st r st' [= <- <-]. apply Hf. Qed.

Lemma preserves_bind {A B} (m : M A) (f : A -> M B) :
  preserves R m -> (forall a, preserves R (f a)) -> preserves R (bind m f).
Proof.
  intros Hm Hf st r st'. unfold bind.
  destruct (m st) as [[a | e |] st1] eqn:E; intros H.
  - transitivity st1; [eapply Hm | eapply Hf]; eauto.
  - injection H as <- <-. eapply Hm; eauto.
  - injection H as <- <-. eapply Hm; eauto.
Qed.
End PreservesRules.

Create HintDb frame.

Ltac frame_step :=
  match goal with
  | |- preserves _ (bind _ _) => simple apply @preserves_bind; [ tc_solve | | intros ]
  | |- preserves _ (ret _) => simple apply @preserves_ret; tc_solve
  | |- preserves _ (throw _) => simple apply @preserves_throw; tc_solve
  | |- preserves _ outOfFuel => simple apply @preserves_outOfFuel; tc_solve
  | |- preserves _ (gets _) => simple apply @preserves_gets; tc_solve
  | |- preserves _ (modify _) =>
      simple apply @preserves_modify; intros; cbn beta; auto
  | |- preserves _ (match ?x with _ => _ end) => destruct x
  | |- preserves _ _ => solve [eauto with frame]
  end.

Ltac frame := repeat frame_step.

(** The footprint of the traversal: any relation that admits the elementary
    updates a function makes is preserved by the function. *)
Section Frame.
Context {W VE PE : Type} `{G : Salve W VE PE}.
Variable R : relation (Validator W VE).
Context `{!PreOrder R}.

Hypothesis R_restarting : forall x st, R st (set_restarting x st).
Hypothesis R_cycleEntered : forall x st, R st (set_cycleEntered x st).
Hypothesis R_stack : forall x st, R st (set_validationStack x st).
Hypothesis R_pushEvent :
  forall e st, R st (set_validationEvents (_validationEvents st ++ [e]) st).
Hypothesis R_walker : forall x st, R st (set_validationWalker x st).
Hypothesis R_pushError : forall e st, R st (set_errors (_errors st ++ [e]) st).
Hypothesis R_emit : forall n st, R st (set_events (_events st ++ [n]) st).
Hypothesis R_setIndex :
  forall n k i st,
    k <> PossibleDueToWildcard ->
    R st (set_expando (<[(n, makeKey st k) := PNum i]> (expando st)) st).
Hypothesis R_setFlag :
  forall n b st,
    R st (set_expando (<[(n, makeKey st PossibleDueToWildcard) := PBool b]>
                         (expando st)) st).
Hypothesis R_stage : forall x st, R st (set_validationStage x st).
Hypothesis R_curEl : forall x st, R st (set_curEl x st).
Hypothesis R_previousChild : forall x st, R st (set_previousChild x st).
Hypothesis R_partDone : forall x st, R st (set_partDone x st).
Hypothesis R_workingState : forall x st, R st (set_workingState x st).
Hypothesis R_working : forall st, R st (set_workingState WORKING st).
Hypothesis R_timeoutId : forall x st, R st (set_timeoutId x st).
Hypothesis R_cacheInsert :
  forall i w st, R st (set_walkerCache (<[i := w]> (_walkerCache st)) st).
Hypothesis R_cacheMax : forall x st, R st (set_walkerCacheMax x st).

Lemma frame_liftOutcome {A} (o : Outcome A) : preserves R (liftOutcome o).
Proof. intros st r st' [= <- <-]. reflexivity. Qed.
Hint Resolve frame_liftOutcome : frame.

Lemma frame_emit n : preserves R (emit n).
Proof. unfold emit. frame. Qed.
Hint Resolve frame_emit : frame.

Lemma frame_setIndex n k i :
  k <> PossibleDueToWildcard -> preserves R (_setNodeProperty n k (PNum i)).
Proof. intros Hk. unfold _setNodeProperty. frame. Qed.

Lemma frame_setFlag n b :
  preserves R (_setNodeProperty n PossibleDueToWildcard (PBool b)).
Proof. unfold _setNodeProperty. frame. Qed.
Hint Resolve frame_setFlag : frame.

Lemma frame_setWorkingState_at s d :
  (forall st, R st (set_workingState s st)) -> preserves R (_setWorkingState s d).
Proof.
  clear R_workingState R_working.
  intros Hs st r st'. unfold _setWorkingState.
  set (c1 := negb (bool_decide (_workingState st = s))).
  set (st1 := if c1 then set_workingState s st else st).
  set (c2 := negb (Qeq_bool (_partDone st1) d)).
  set (st2 := if c2 then set_partDone d st1 else st1).
  assert (H1 : R st st1) by (subst st1; destruct c1; [apply Hs | reflexivity]).
  assert (H2 : R st1 st2)
    by (subst st2; destruct c2; [apply R_partDone | reflexivity]).
  destruct (c1 || c2).
  - intros H. transitivity st2; [etransitivity; eauto |].
    eapply frame_emit; eauto.
  - intros [= <- <-]. etransitivity; eauto.
Qed.

Lemma frame_setWorkingState s d : preserves R (_setWorkingState s d).
Proof. apply frame_setWorkingState_at. auto. Qed.

Lemma frame_stop s : preserves R (_stop s).
Proof. unfold _stop. frame; apply frame_setWorkingState. Qed.
Hint Resolve frame_stop : frame.

Lemma frame_processError e : preserves R (_processError e).
Proof. unfold _processError. frame. Qed.
Hint Resolve frame_processError : frame.

Lemma frame_processEventResult results n ix :
  preserves R (_processEventResult results n ix).
Proof. induction results; simpl; frame. Qed.
Hint Resolve frame_processEventResult : frame.

Lemma frame_fireAndProcessEvent w ev el ix :
  preserves R (_fireAndProcessEvent w ev el ix).
Proof. unfold _fireAndProcessEvent. frame. Qed.
Hint Resolve frame_fireAndProcessEvent : frame.

Lemma frame_setPossibleDueToWildcard n w eventName ns name :
  preserves R (_setPossibleDueToWildcard n w eventName ns name).
Proof. unfold _setPossibleDueToWildcard. frame. Qed.
Hint Resolve frame_setPossibleDueToWildcard : frame.

Lemma frame_fireAttributeNameEvent w el attrRef attr :
  preserves R (_fireAttributeNameEvent w el attrRef attr).
Proof. unfold _fireAttributeNameEvent. frame. Qed.
Hint Resolve frame_fireAttributeNameEvent : frame.

Lemma frame_fireAttributeLoop attrs : forall w el i,
  preserves R (fireAttributeLoop w el i attrs).
Proof. induction attrs; intros; simpl; frame. Qed.
Hint Resolve frame_fireAttributeLoop : frame.

Lemma frame_onLiveWalker f :
  (forall w, preserves R (f w)) -> preserves R (onLiveWalker f).
Proof. intros Hf. unfold onLiveWalker. frame. Qed.

Lemma frame_definePrefixLoop curEl attrs :
  preserves R (definePrefixLoop curEl attrs).
Proof.
  induction attrs; simpl; frame; apply frame_onLiveWalker; intros; frame.
Qed.
Hint Resolve frame_definePrefixLoop : frame.

Lemma frame_stageStartTag q : preserves R (stageStartTag q).
Proof.
  unfold stageStartTag, eventsLength, _fireAttributeEvents.
  frame;
    try (apply frame_onLiveWalker; intros; frame);
    try (apply frame_setIndex; discriminate).
Qed.
Hint Resolve frame_stageStartTag : frame.

Lemma frame_flushText acc accNode : preserves R (flushText acc accNode).
Proof. unfold flushText. frame. Qed.
Hint Resolve frame_flushText : frame.

Lemma frame_contentsLoop q parent rest : forall i acc accNode,
  preserves R (contentsLoop q parent i rest acc accNode).
Proof. induction rest; intros; simpl; frame. Qed.
Hint Resolve frame_contentsLoop : frame.

Lemma frame_stageContents q : preserves R (stageContents q).
Proof. unfold stageContents. frame. Qed.
Hint Resolve frame_stageContents : frame.

Lemma frame_finishDocument : preserves R finishDocument.
Proof.
  unfold finishDocument, eventsLength, _runDocumentValidation.
  frame; apply frame_setIndex; discriminate.
Qed.
Hint Resolve frame_finishDocument : frame.

Lemma frame_closeElement q curEl parent :
  preserves R (closeElement q curEl parent).
Proof.
  clear R_workingState.
  unfold closeElement, eventsLength.
  frame;
    try (apply frame_onLiveWalker; intros; frame);
    try (apply frame_setIndex; discriminate);
    try (apply frame_setWorkingState_at; exact R_working).
Qed.
Hint Resolve frame_closeElement : frame.

Lemma frame_stageEndTag q : preserves R (stageEndTag q).
Proof. unfold stageEndTag. frame. Qed.
Hint Resolve frame_stageEndTag : frame.

Lemma frame_cycle : preserves R _cycle.
Proof. unfold _cycle. frame. Qed.
Hint Resolve frame_cycle : frame.

Lemma frame_runToCompletion fuel : preserves R (runToCompletion fuel).
Proof. induction fuel; simpl; frame. Qed.

Lemma frame_validateLoop fuel toInspect dataKey :
  preserves R (validateLoop fuel toInspect dataKey).
Proof. induction fuel; simpl; frame. Qed.
Hint Resolve frame_validateLoop : frame.

Lemma frame_validateUpTo fuel container index attributes :
  preserves R (_validateUpTo fuel container index attributes).
Proof. unfold _validateUpTo. frame. Qed.
Hint Resolve frame_validateUpTo : frame.

Lemma frame_readyWalker ei : preserves R (readyWalker ei).
Proof. unfold readyWalker. frame. Qed.
Hint Resolve frame_readyWalker : frame.

Lemma frame_walkerAtAttribute doc owner ix :
  preserves R (walkerAtAttribute doc owner ix).
Proof. unfold walkerAtAttribute. frame. Qed.
Hint Resolve frame_walkerAtAttribute : frame.

Lemma frame_walkerInText doc i parent data index :
  preserves R (walkerInText doc i parent data index).
Proof. unfold walkerInText. frame. Qed.
Hint Resolve frame_walkerInText : frame.

Lemma frame_walkerInContainer p cs index attributes :
  preserves R (walkerInContainer p cs index attributes).
Proof. unfold walkerInContainer. frame. Qed.
Hint Resolve frame_walkerInContainer : frame.

Lemma frame_walkerAtNode p index attributes :
  preserves R (walkerAtLocation (NodeAt p) index attributes).
Proof. unfold walkerAtLocation. frame. Qed.

Lemma frame_walkerAtLocation container index attributes :
  preserves R (walkerAtLocation container index attributes).
Proof. unfold walkerAtLocation. frame. Qed.
Hint Resolve frame_walkerAtLocation : frame.

Lemma frame_getWalkerAt fuel container index attributes :
  preserves R (_getWalkerAt fuel container index attributes).
Proof. unfold _getWalkerAt. frame. Qed.

End Frame.

(** [keep f]: the function [f] of the state has the same value afterwards. *)
Definition keep {W VE A} (f : Validator W VE -> A) : relation (Validator W VE) :=
  fun st st' => f st' = f st.

#[global] Instance keep_preorder {W VE A} (f : Validator W VE -> A) :
  PreOrder (keep f).
Proof.
  split.
  - intros st. reflexivity.
  - intros a b c Hab Hbc. unfold keep in *. congruence.
Qed.

(** Closes the side conditions of a frame lemma used at a relation [keep f]. *)
Ltac by_frame lem :=
  eapply lem; eauto;
  first [ tc_solve | intros; reflexivity | intros; unfold keep; reflexivity ].

Section BindInversion.
Context {W VE : Type}.

Lemma bind_ret_inv {A B} (m : @M W VE A) (f : A -> M B) st b st' :
  bind m f st = (Ret b, st') ->
  exists a st1, m st = (Ret a, st1) /\ f a st1 = (Ret b, st').
Proof.
  unfold bind. destruct (m st) as [[a | e |] st1]; intros H; try discriminate.
  eauto.
Qed.

Lemma bind_inv {A B} (m : @M W VE A) (f : A -> M B) st r st' :
  bind m f st = (r, st') ->
  (exists a st1, m st = (Ret a, st1) /\ f a st1 = (r, st'))
  \/ (exists e, m st = (Throw e, st') /\ r = Throw e)
  \/ (m st = (OutOfFuel, st') /\ r = OutOfFuel).
Proof.
  unfold bind. destruct (m st) as [[a | e |] st1]; intros H.
  - left. eauto.
  - injection H as <- <-. right. left. eauto.
  - injection H as <- <-. right. right. eauto.
Qed.

Lemma bind_eq {A B} (m : @M W VE A) (f : A -> M B) st a st1 :
  m st = (Ret a, st1) -> bind m f st = f a st1.
Proof. unfold bind. intros ->. reflexivity. Qed.

Lemma bind_throw {A B} (m : @M W VE A) (f : A -> M B) st e st1 :
  m st = (Throw e, st1) -> bind m f st = (Throw e, st1).
Proof. unfold bind. intros ->. reflexivity. Qed.

Lemma bind_outOfFuel {A B} (m : @M W VE A) (f : A -> M B) st st1 :
  m st = (OutOfFuel, st1) -> bind m f st = (OutOfFuel, st1).
Proof. unfold bind. intros ->. reflexivity. Qed.
End BindInversion.

(** ** Properties of the validator *)

Definition negativeOpt (o : option Z) : Prop :=
  match o with Some v => v < 0 | None => False end.

Definition acceptableOpt (o : option Z) : Prop :=
  match o with Some v => 0 <= v | None => True end.

Definition supplied (o : option Z) (default : Z) : Z :=
  match o with Some v => v | None => default end.

Section Claims.
Context {W VE PE : Type} `{G : Salve W VE PE}.

Abbreviation State := (Validator W VE).
Abbreviation Comp := (@M W VE).

Implicit Type st : State.

(** The constructor accepts options that are absent or not negative. *)
Lemma newValidator_accepts (doc : Node)
      (store : gmap (NodeRef * string) PropVal) (options : Options) :
  acceptableOpt (opt_timeout options) ->
  acceptableOpt (opt_maxTimespan options) ->
  acceptableOpt (opt_walkerCacheGap options) ->
  exists st,
    newValidator doc store options = Ret st
    /\ _timeout st = supplied (opt_timeout options) 200
    /\ _maxTimespan st = supplied (opt_maxTimespan options) 100
    /\ _walkerCacheGap st = supplied (opt_walkerCacheGap options) 100.
Proof.
  destruct options as [p t m g]. simpl.
  intros Ht Hm Hg. unfold newValidator, checkOption. simpl.
  assert (Et : match t with
               | Some v => if v <? 0 then Throw (NegativeOption K_timeout) else Ret v
               | None => Ret 200
               end = Ret (supplied t 200)).
  { destruct t as [t|]; simpl in *; [| reflexivity].
    destruct (Z.ltb_spec t 0); [lia | reflexivity]. }
  assert (Em : match m with
               | Some v => if v <? 0 then Throw (NegativeOption K_maxTimespan) else Ret v
               | None => Ret 100
               end = Ret (supplied m 100)).
  { destruct m as [m|]; simpl in *; [| reflexivity].
    destruct (Z.ltb_spec m 0); [lia | reflexivity]. }
  assert (Eg : match g with
               | Some v => if v <? 0 then Throw (NegativeOption K_walkerCacheGap) else Ret v
               | None => Ret 100
               end = Ret (supplied g 100)).
  { destruct g as [g|]; simpl in *; [| reflexivity].
    destruct (Z.ltb_spec g 0); [lia | reflexivity]. }
  rewrite Et, Em, Eg. eexists. split; [reflexivity |]. simpl. auto.
Qed.

(** C9.  The constructor rejects a negative [timeout], [maxTimespan] or
    [walkerCacheGap] by throwing; where each of the three is absent or not
    negative (0 included) it returns a validator in which the values given
    stand in place of the defaults 200, 100 and 100. *)
Theorem C9_constructor_options (doc : Node)
        (store : gmap (NodeRef * string) PropVal) (options : Options) :
  (negativeOpt (opt_timeout options)
   \/ negativeOpt (opt_maxTimespan options)
   \/ negativeOpt (opt_walkerCacheGap options) ->
   exists key, newValidator doc store options = Throw (NegativeOption key))
  /\
  (acceptableOpt (opt_timeout options) ->
   acceptableOpt (opt_maxTimespan options) ->
   acceptableOpt (opt_walkerCacheGap options) ->
   exists st,
     newValidator doc store options = Ret st
     /\ _timeout st = supplied (opt_timeout options) 200
     /\ _maxTimespan st = supplied (opt_maxTimespan options) 100
     /\ _walkerCacheGap st = supplied (opt_walkerCacheGap options) 100).
Proof.
  destruct options as [p t m g]. simpl. split.
  - intros Hneg. unfold newValidator, checkOption. simpl.
    destruct t as [t|]; simpl in *.
    + destruct (Z.ltb_spec t 0); [eauto |].
      destruct m as [m|]; simpl in *.
      * destruct (Z.ltb_spec m 0); [eauto |].
        destruct g as [g|]; simpl in *; [| lia].
        destruct (Z.ltb_spec g 0); [eauto | lia].
      * destruct g as [g|]; simpl in *; [| lia].
        destruct (Z.ltb_spec g 0); [eauto | lia].
    + destruct m as [m|]; simpl in *.
      * destruct (Z.ltb_spec m 0); [eauto |].
        destruct g as [g|]; simpl in *; [| lia].
        destruct (Z.ltb_spec g 0); [eauto | lia].
      * destruct g as [g|]; simpl in *; [| lia].
        destruct (Z.ltb_spec g 0); [eauto | lia].
  - intros Ht Hm Hg.
    apply (newValidator_accepts doc store (mkOptions p t m g)); assumption.
Qed.

(** C8.  [_setPossibleDueToWildcard] stores the flag it computes on the node
    and publishes [possible-due-to-wildcard-change] for the node exactly when
    the value stored before differs from the new one (no value stored counts
    as a different value); computing the value already stored publishes
    nothing.  Nothing else is published. *)
Theorem C8_wildcard_flag_edge_triggered
        (n : NodeRef) (walker : W) (eventName ns name : string) st :
  let flag := isPossibleDueToWildcard walker eventName ns name in
  exists st',
    _setPossibleDueToWildcard n walker eventName ns name st = (Ret tt, st')
    /\ getNodeProperty st' n PossibleDueToWildcard = Some (PBool flag)
    /\ _events st' =
       (_events st ++
        if decide (getNodeProperty st n PossibleDueToWildcard = Some (PBool flag))
        then []
        else [N_possible_due_to_wildcard_change n])%list.
Proof.
  intros flag. unfold _setPossibleDueToWildcard, _setNodeProperty, bind, gets, modify.
  fold flag.
  destruct (getNodeProperty st n PossibleDueToWildcard) as [[i | b] |] eqn:E.
  - eexists. split; [reflexivity |]. split.
    + unfold getNodeProperty, makeKey. simpl. apply lookup_insert_eq.
    + simpl. reflexivity.
  - destruct (Bool.eqb b flag) eqn:Eb.
    + apply Bool.eqb_prop in Eb. subst b.
      eexists. split; [reflexivity |]. split.
      * unfold getNodeProperty, makeKey. simpl. apply lookup_insert_eq.
      * simpl. case_decide as D; [| congruence].
        symmetry. apply app_nil_r.
    + eexists. split; [reflexivity |]. split.
      * unfold getNodeProperty, makeKey. simpl. apply lookup_insert_eq.
      * simpl. case_decide as D; [| reflexivity].
        injection D as ->. rewrite Bool.eqb_reflx in Eb. discriminate.
  - eexists. split; [reflexivity |]. split.
    + unfold getNodeProperty, makeKey. simpl. apply lookup_insert_eq.
    + simpl. reflexivity.
Qed.

(** *** Totality, postconditions *)

Definition total {A} (m : Comp A) : Prop :=
  forall st, exists a st', m st = (Ret a, st').

Definition post {A} (Q : State -> Outcome A -> State -> Prop) (m : Comp A)
  : Prop :=
  forall st r st', m st = (r, st') -> Q st r st'.

Lemma total_ret {A} (a : A) : total (ret a).
Proof. intros st. eexists _, _. reflexivity. Qed.

Lemma total_gets {A} (f : State -> A) : total (gets f).
Proof. intros st. eexists _, _. reflexivity. Qed.

Lemma total_modify (f : State -> State) : total (modify f).
Proof. intros st. eexists _, _. reflexivity. Qed.

Lemma total_bind {A B} (m : Comp A) (f : A -> Comp B) :
  total m -> (forall a, total (f a)) -> total (bind m f).
Proof.
  intros Hm Hf st. destruct (Hm st) as (a & st1 & E).
  destruct (Hf a st1) as (b & st2 & E2).
  exists b, st2. rewrite (bind_eq _ _ _ _ _ E). exact E2.
Qed.

Create HintDb total.

Ltac total_step :=
  match goal with
  | |- total (bind _ _) => simple apply @total_bind; [ | intros ]
  | |- total (ret _) => simple apply @total_ret
  | |- total (gets _) => simple apply @total_gets
  | |- total (modify _) => simple apply @total_modify
  | |- total (match ?x with _ => _ end) => destruct x
  | |- total _ => solve [eauto with total]
  end.

Ltac total_tac := repeat total_step.

Lemma total_emit n : total (emit n).
Proof. unfold emit. total_tac. Qed.
Hint Resolve total_emit : total.

Lemma total_setNodeProperty n k v : total (_setNodeProperty n k v).
Proof. unfold _setNodeProperty. total_tac. Qed.
Hint Resolve total_setNodeProperty : total.

Lemma total_setWorkingState s d : total (_setWorkingState s d).
Proof.
  intros st. unfold _setWorkingState.
  destruct (_ || _); [apply total_emit | eexists _, _; reflexivity].
Qed.
Hint Resolve total_setWorkingState : total.

Lemma total_stop s : total (_stop s).
Proof. unfold _stop. total_tac. Qed.
Hint Resolve total_stop : total.

Lemma total_processError e : total (_processError e).
Proof. unfold _processError. total_tac. Qed.
Hint Resolve total_processError : total.

Lemma total_processEventResult results n ix :
  total (_processEventResult results n ix).
Proof. induction results; simpl; total_tac. Qed.
Hint Resolve total_processEventResult : total.

Lemma total_fireAndProcessEvent w ev el ix :
  total (_fireAndProcessEvent w ev el ix).
Proof. unfold _fireAndProcessEvent. total_tac. Qed.
Hint Resolve total_fireAndProcessEvent : total.

Lemma total_setPossibleDueToWildcard n w eventName ns name :
  total (_setPossibleDueToWildcard n w eventName ns name).
Proof. unfold _setPossibleDueToWildcard. total_tac. Qed.
Hint Resolve total_setPossibleDueToWildcard : total.

Lemma total_fireAttributeNameEvent w el attrRef attr :
  total (_fireAttributeNameEvent w el attrRef attr).
Proof. unfold _fireAttributeNameEvent. total_tac. Qed.
Hint Resolve total_fireAttributeNameEvent : total.

Lemma total_fireAttributeLoop attrs : forall w el i,
  total (fireAttributeLoop w el i attrs).
Proof. induction attrs; intros; simpl; total_tac. Qed.
Hint Resolve total_fireAttributeLoop : total.

Lemma total_onLiveWalker f :
  (forall w, total (f w)) -> total (onLiveWalker f).
Proof. intros Hf. unfold onLiveWalker. total_tac. Qed.

Lemma total_definePrefixLoop curEl attrs : total (definePrefixLoop curEl attrs).
Proof.
  induction attrs; simpl; total_tac; apply total_onLiveWalker; intros; total_tac.
Qed.
Hint Resolve total_definePrefixLoop : total.

Lemma total_finishDocument : total finishDocument.
Proof. unfold finishDocument, _runDocumentValidation, eventsLength. total_tac. Qed.

(** A computation that is total and has a footprint returns in a state the
    footprint relates to the first. *)
Lemma total_frame {A} (R : relation State) (m : Comp A) st :
  total m -> preserves R m ->
  exists a st', m st = (Ret a, st') /\ R st st'.
Proof.
  intros Ht Hp. destruct (Ht st) as (a & st' & E).
  exists a, st'. split; [exact E | eapply Hp; exact E].
Qed.

Lemma post_bind {A B} (R : relation State)
      (Q : State -> Outcome B -> State -> Prop) (m : Comp A) (f : A -> Comp B) :
  preserves R m ->
  (forall st st1 r st', R st st1 -> Q st1 r st' -> Q st r st') ->
  (forall st st' e, R st st' -> Q st (Throw e) st') ->
  (forall st st', R st st' -> Q st OutOfFuel st') ->
  (forall a, post Q (f a)) ->
  post Q (bind m f).
Proof.
  intros Hm Habs Hthrow Hfuel Hf st r st' H.
  destruct (bind_inv _ _ _ _ _ H) as [(a & st1 & E1 & E2) | [(e & E & ->) | [E ->]]].
  - eapply Habs; [eapply Hm; exact E1 | eapply Hf; exact E2].
  - apply Hthrow. eapply Hm; exact E.
  - apply Hfuel. eapply Hm; exact E.
Qed.

(** A postcondition on the outcome and the final state alone that every
    abnormal outcome meets is decided by the last computation of a
    sequence. *)
Lemma post_bind_last {A B} (Q : Outcome B -> State -> Prop)
      (m : Comp A) (f : A -> Comp B) :
  (forall e st, Q (Throw e) st) ->
  (forall st, Q OutOfFuel st) ->
  (forall a, post (fun _ => Q) (f a)) ->
  post (fun _ => Q) (bind m f).
Proof.
  intros Hthrow Hfuel Hf st r st' H.
  destruct (bind_inv _ _ _ _ _ H) as [(a & st1 & E1 & E2) | [(e & E & ->) | [E ->]]].
  - eapply Hf; exact E2.
  - apply Hthrow.
  - apply Hfuel.
Qed.

(** *** The steps of [_cycle] that return [true] *)

Definition notLast (r : Outcome bool) (st' : State) : Prop := r <> Ret false.

Ltac notLast_tac :=
  repeat match goal with
         | |- post (fun _ => notLast) (bind _ _) =>
             simple apply @post_bind_last;
             [ intros; discriminate | intros; discriminate | intros ]
         | |- post (fun _ => notLast) (match ?x with _ => _ end) => destruct x
         | |- post (fun _ => notLast) _ =>
             solve [ intros ? ? ? [= <- <-]; discriminate ]
         end.

Lemma stageStartTag_notLast q : post (fun _ => notLast) (stageStartTag q).
Proof. unfold stageStartTag. notLast_tac. Qed.

Lemma closeElement_notLast q curEl parent :
  post (fun _ => notLast) (closeElement q curEl parent).
Proof. unfold closeElement. notLast_tac. Qed.

(** *** Recording errors *)

Definition pushErrors (errs : list (ErrorData VE)) st : State :=
  set_events (_events st ++ map N_error errs)
             (set_errors (_errors st ++ errs) st).

Lemma pushErrors_nil st : pushErrors [] st = st.
Proof. destruct st. unfold pushErrors. simpl. rewrite !app_nil_r. reflexivity. Qed.

Lemma pushErrors_app l1 l2 st :
  pushErrors l2 (pushErrors l1 st) = pushErrors (l1 ++ l2) st.
Proof.
  destruct st. unfold pushErrors. simpl.
  rewrite map_app, !app_assoc. reflexivity.
Qed.

Lemma processError_eq e st : _processError e st = (Ret tt, pushErrors [e] st).
Proof. reflexivity. Qed.

Lemma processEventResult_eq results n ix st :
  _processEventResult results n ix st =
  (Ret tt, pushErrors (map (fun r => mkErrorData r n ix) results) st).
Proof.
  revert st. induction results as [| r rest IH]; intros st; simpl.
  - rewrite pushErrors_nil. reflexivity.
  - rewrite (bind_eq _ _ _ _ _ (processError_eq _ st)). rewrite IH.
    rewrite pushErrors_app. reflexivity.
Qed.

Lemma setWorkingState_state s d st r st' :
  _setWorkingState s d st = (r, st') -> r = Ret tt /\ _workingState st' = s.
Proof.
  unfold _setWorkingState.
  destruct (bool_decide (_workingState st = s)) eqn:E1; simpl.
  - apply bool_decide_eq_true in E1.
    destruct (Qeq_bool (_partDone st) d); simpl; intros [= <- <-]; auto.
  - destruct (Qeq_bool _ d); simpl; intros [= <- <-]; auto.
Qed.

(** The fields of the traversal that neither [_stop] nor the recording of
    progress touches. *)
Definition traversalView st :=
  (_cycleEntered st, _errors st, _validationEvents st, _validationWalker st,
   _validationStage st, _previousChild st, _curEl st, root st, _prefix st,
   expando st).

Lemma stop_some_spec s st :
  exists st',
    _stop (Some s) st = (Ret tt, st')
    /\ _workingState st' = s
    /\ traversalView st' = traversalView st.
Proof.
  destruct (total_frame (keep traversalView) (_stop (Some s)) st)
    as ([] & st' & E & HR).
  - apply total_stop.
  - by_frame @frame_stop.
  - exists st'. split; [exact E |]. split; [| exact HR].
    unfold _stop in E.
    apply bind_ret_inv in E as ([] & st1 & _ & E).
    apply bind_ret_inv in E as (d & st2 & _ & E).
    eapply setWorkingState_state; exact E.
Qed.

(** The last step of a pass: what [finishDocument] leaves. *)
Definition finished (st st' : State) : Prop :=
  _curEl st' = _curEl st
  /\ _validationStage st' = _validationStage st
  /\ _validationWalker st' = fst (walkerEnd (_validationWalker st))
  /\ _validationEvents st' = _validationEvents st
  /\ _errors st' =
     (_errors st ++
      map (fun e => mkErrorData e (Some (NodeAt []))
                                (Some (length (childrenAt (root st) []))))
          (match snd (walkerEnd (_validationWalker st)) with
           | Some errs => errs
           | None => []
           end))%list
  /\ _workingState st' =
     (if (0 <? length (_errors st'))%nat then INVALID else VALID)
  /\ getNodeProperty st' (NodeAt []) EventIndexAfter =
     Some (PNum (length (_validationEvents st)))
  /\ _cycleEntered st' = _cycleEntered st - 1.

Lemma finishDocument_spec st :
  exists st', finishDocument st = (Ret false, st') /\ finished st st'.
Proof.
  unfold finishDocument, _runDocumentValidation, eventsLength.
  cbn [bind gets modify ret].
  destruct (walkerEnd (_validationWalker st)) as [w' er] eqn:Eend.
  cbn [bind gets modify ret].
  set (st1 := set_validationWalker w' st).
  set (errs := match er with Some errs => errs | None => [] end).
  set (st2 := pushErrors
                (map (fun e => mkErrorData e (Some (NodeAt []))
                                 (Some (length (childrenAt (root st) [])))) errs)
                st1).
  assert (E2 : (match er with
                | Some errs =>
                    _processEventResult errs (Some (NodeAt []))
                      (Some (length (childrenAt (root st) [])))
                | None => ret tt
                end) st1 = (Ret tt, st2)).
  { subst st2 errs. destruct er.
    - apply processEventResult_eq.
    - simpl. rewrite pushErrors_nil. reflexivity. }
  rewrite (bind_eq _ _ _ _ _ E2). cbn [bind gets modify ret _setNodeProperty].
  match goal with
  | |- context [bind (_stop (Some ?s)) _ ?stx] =>
      destruct (stop_some_spec s stx) as (st3 & E3 & Hws & Hview);
      rewrite (bind_eq _ _ _ _ _ E3)
  end.
  cbn [bind gets modify ret].
  eexists. split; [reflexivity |].
  unfold traversalView in Hview. simpl in Hview.
  injection Hview as Hce Herr Hev Hw Hstage Hprev Hcur Hroot Hpre Hexp.
  simpl in Hws.
  unfold finished, getNodeProperty, makeKey. rewrite Eend. simpl.
  fold errs.
  split; [exact Hcur |]. split; [exact Hstage |]. split; [exact Hw |].
  split; [exact Hev |]. split; [exact Herr |].
  split; [rewrite Hws, Herr; reflexivity |].
  split; [| rewrite Hce; reflexivity].
  rewrite Hexp, Hpre. apply lookup_insert_eq.
Qed.

Lemma stageEndTag_last q st st' :
  stageEndTag q st = (Ret false, st') -> _curEl st = [] /\ finished st st'.
Proof.
  unfold stageEndTag. cbn [bind gets].
  destruct (_curEl st) as [| i parent] eqn:Ecur.
  - intros H. destruct (finishDocument_spec st) as (st2 & E & Hf).
    rewrite E in H. injection H as <-. auto.
  - intros H. exfalso. eapply closeElement_notLast; [exact H | reflexivity].
Qed.

(** The fields [stageContents] leaves alone. *)
Definition contentsView st :=
  (_cycleEntered st, _validationEvents st, _workingState st, root st,
   _prefix st, expando st).

Lemma stageContents_toEndTag q st st' :
  stageContents q st = (Ret ToEndTag, st') -> _curEl st' = _curEl st.
Proof.
  assert (Hloop : forall rest parent i acc accNode st0 st0',
             contentsLoop q parent i rest acc accNode st0 = (Ret ToEndTag, st0') ->
             _curEl st0' = _curEl st0).
  { induction rest as [| n rest IH]; intros parent i acc accNode st0 st0'.
    - simpl. intros H.
      apply bind_ret_inv in H as ([] & st1 & E1 & H).
      cbn [bind modify ret] in H. injection H as <-.
      simpl. eapply (frame_flushText (keep _curEl)); eauto;
        first [tc_solve | intros; reflexivity].
    - simpl. destruct n; try (intros H; discriminate H); try apply IH.
      intros H. apply bind_ret_inv in H as ([] & st1 & E1 & H).
      cbn [bind modify ret gets] in H. discriminate H. }
  unfold stageContents. cbn [bind gets].
  destruct (_previousChild st) as [[| i parent] |]; apply Hloop.
Qed.

(** *** The working state *)

(** The working state is what it was, or has become WORKING. *)
Definition workingOrSame : relation State :=
  fun st st' =>
    _workingState st' = _workingState st \/ _workingState st' = WORKING.

#[local] Instance workingOrSame_preorder : PreOrder workingOrSame.
Proof.
  split.
  - intros st. left. reflexivity.
  - intros a b c [Hab | Hab] [Hbc | Hbc]; unfold workingOrSame;
      first [ left; congruence | right; congruence ].
Qed.

Ltac by_working lem :=
  eapply lem;
  first [ tc_solve
        | intros; left; reflexivity
        | intros; right; reflexivity ].

Definition unlessLast (st : State) (r : Outcome bool) (st' : State) : Prop :=
  r <> Ret false -> workingOrSame st st'.

Lemma unlessLast_of_preserves (m : Comp bool) :
  preserves workingOrSame m -> post unlessLast m.
Proof. intros Hm st r st' E _. eapply Hm; exact E. Qed.

Lemma unlessLast_bind {A} (m : Comp A) (f : A -> Comp bool) :
  preserves workingOrSame m ->
  (forall a, post unlessLast (f a)) ->
  post unlessLast (bind m f).
Proof.
  intros Hm Hf. apply (post_bind workingOrSame); auto.
  - intros st st1 r st' H1 H2 Hr. etransitivity; [exact H1 | auto].
  - intros st st' e H _. exact H.
  - intros st st' H _. exact H.
Qed.

Lemma stageEndTag_unlessLast q : post unlessLast (stageEndTag q).
Proof.
  intros st r st'. unfold stageEndTag. cbn [bind gets].
  destruct (_curEl st) as [| i parent].
  - destruct (finishDocument_spec st) as (st2 & E & _). rewrite E.
    intros [= <- <-] Hr. congruence.
  - intros E _. revert E. by_working @frame_closeElement.
Qed.

Lemma cycle_unlessLast : post unlessLast _cycle.
Proof.
  unfold _cycle.
  apply unlessLast_bind; [apply preserves_modify; intros; left; reflexivity |].
  intros _. apply unlessLast_bind; [apply preserves_gets; tc_solve |].
  intros entered.
  destruct (0 <? entered);
    [apply unlessLast_of_preserves, preserves_throw; tc_solve |].
  destruct (entered <? 0);
    [apply unlessLast_of_preserves, preserves_throw; tc_solve |].
  apply unlessLast_bind; [apply preserves_modify; intros; left; reflexivity |].
  intros _. apply unlessLast_bind; [apply preserves_gets; tc_solve |].
  intros [| top stack];
    [apply unlessLast_of_preserves, preserves_throw; tc_solve |].
  apply unlessLast_bind; [apply preserves_gets; tc_solve |].
  intros [| |].
  - apply unlessLast_of_preserves. by_working @frame_stageStartTag.
  - apply unlessLast_bind; [by_working @frame_stageContents |].
    intros [q |].
    + apply unlessLast_of_preserves. by_working @frame_stageStartTag.
    + apply stageEndTag_unlessLast.
  - apply stageEndTag_unlessLast.
Qed.

(** What holds after the step that ends a pass: the traversal is back at the
    root, the walker has been ended, the index after the root is recorded and
    the working state tells whether an error was recorded. *)
Definition passEnded (st' : State) : Prop :=
  _curEl st' = []
  /\ (exists w, _validationWalker st' = fst (walkerEnd w))
  /\ is_Some (getNodeProperty st' (NodeAt []) EventIndexAfter)
  /\ _workingState st' =
     (if (0 <? length (_errors st'))%nat then INVALID else VALID).

Definition ifLast (r : Outcome bool) (st' : State) : Prop :=
  r = Ret false -> passEnded st'.

Lemma ifLast_of_notLast (m : Comp bool) :
  post (fun _ => notLast) m -> post (fun _ => ifLast) m.
Proof. intros Hm st r st' E Hr. exfalso. eapply Hm; eauto. Qed.

Lemma stageEndTag_ifLast q : post (fun _ => ifLast) (stageEndTag q).
Proof.
  intros st r st' E ->. apply stageEndTag_last in E as [Hcur Hf].
  destruct Hf as (H1 & H2 & H3 & H4 & H5 & H6 & H7 & H8).
  split; [congruence |]. split; [eauto |]. split; [rewrite H7; eauto | exact H6].
Qed.

Lemma cycle_ifLast : post (fun _ => ifLast) _cycle.
Proof.
  unfold _cycle.
  repeat match goal with
         | |- post (fun _ => ifLast) (bind _ _) =>
             simple apply @post_bind_last;
             [ intros; intro; discriminate | intros; intro; discriminate | intros ]
         | |- post (fun _ => ifLast) (stageStartTag _) =>
             apply ifLast_of_notLast, stageStartTag_notLast
         | |- post (fun _ => ifLast) (stageEndTag _) => apply stageEndTag_ifLast
         | |- post (fun _ => ifLast) (throw _) =>
             intros ? ? ? [= <- <-]; intro; discriminate
         | |- post (fun _ => ifLast) (match ?x with _ => _ end) => destruct x
         end.
Qed.

Lemma runToCompletion_passEnded fuel : forall st st',
  runToCompletion fuel st = (Ret tt, st') -> passEnded st'.
Proof.
  induction fuel as [| fuel IH]; intros st st'; simpl.
  - intros H. discriminate H.
  - intros H. apply bind_ret_inv in H as (b & st1 & E1 & H).
    destruct b.
    + eapply IH; exact H.
    + injection H as <-. eapply cycle_ifLast; [exact E1 | reflexivity].
Qed.


(** *** Forced validation *)

Lemma validateLoop_ret fuel toInspect dataKey : forall st st',
  validateLoop fuel toInspect dataKey st = (Ret tt, st') ->
  is_Some (getNodeProperty st' toInspect dataKey).
Proof.
  induction fuel as [| fuel IH]; intros st st'; simpl; cbn [bind gets];
    destruct (getNodeProperty st toInspect dataKey) as [v |] eqn:E.
  - intros [= <-]. rewrite E. eauto.
  - intros H. discriminate H.
  - intros [= <-]. rewrite E. eauto.
  - intros H. apply bind_ret_inv in H as (b & st1 & _ & H).
    eapply IH; exact H.
Qed.

(** Once the property is there the loop does nothing, whatever the fuel. *)
Lemma validateLoop_reached fuel toInspect dataKey st :
  is_Some (getNodeProperty st toInspect dataKey) ->
  validateLoop fuel toInspect dataKey st = (Ret tt, st).
Proof.
  intros [v Hv]. destruct fuel; simpl; cbn [bind gets]; rewrite Hv; reflexivity.
Qed.

Lemma lastElementBefore_here cs i c :
  cs !! i = Some c -> isElement c = true -> lastElementBefore cs (S i) = Some i.
Proof. intros Hc He. simpl. rewrite Hc, He. reflexivity. Qed.

Lemma nodeAt_child doc i p :
  nodeAt doc (i :: p) =
  match nodeAt doc p with
  | Some n => childNodes n !! i
  | None => None
  end.
Proof.
  unfold nodeAt. simpl.
  generalize (rev p). intros l. revert doc.
  induction l as [| j l IH]; intros doc; simpl.
  - destruct (childNodes doc !! i); reflexivity.
  - destruct (childNodes doc !! j); [apply IH | reflexivity].
Qed.

(** The location just after an element is reached when the index after the
    element is recorded. *)
Lemma upToTarget_after_element doc i parent tag attrs cs :
  nodeAt doc (i :: parent) = Some (Element tag attrs cs) ->
  upToTarget doc (NodeAt parent) (Z.of_nat i + 1) false =
  Ret (UpToProperty (NodeAt (i :: parent)) EventIndexAfter).
Proof.
  intros Hn. rewrite nodeAt_child in Hn.
  destruct (nodeAt doc parent) as [pn |] eqn:Hp; [| discriminate].
  unfold upToTarget.
  replace (isRoot (NodeAt parent) && (Z.of_nat i + 1 <=? 0)) with false
    by (destruct (Z.leb_spec (Z.of_nat i + 1) 0); [lia | symmetry; apply andb_false_r]).
  rewrite Hp.
  assert (Hprev : forall l, l = childNodes pn ->
            match childAt l (Z.of_nat i + 1) with
            | Some (j, _) => previousElementSibling l j
            | None => lastElementChild l
            end = Some i).
  { intros l ->. unfold childAt.
    destruct (Z.ltb_spec (Z.of_nat i + 1) 0); [lia |].
    replace (Z.to_nat (Z.of_nat i + 1)) with (S i) by lia.
    destruct (childNodes pn !! S i) eqn:Hnext.
    - apply (lastElementBefore_here _ _ _ Hn). reflexivity.
    - unfold lastElementChild.
      apply lookup_ge_None in Hnext. pose proof (lookup_lt_Some _ _ _ Hn).
      replace (length (childNodes pn)) with (S i) by lia.
      apply (lastElementBefore_here _ _ _ Hn). reflexivity. }
  destruct pn as [t a l | d | d | l | l | k]; simpl in Hn;
    try (rewrite lookup_nil in Hn; discriminate Hn);
    unfold upToInContainer; rewrite (Hprev l eq_refl); reflexivity.
Qed.


(** The guard of [_cycle]: entered with the counter set, it throws and does
    nothing else than clear [_restarting]. *)
Lemma cycle_guard st :
  0 < _cycleEntered st ->
  _cycle st = (Throw CycleReentered, set_restarting false st).
Proof.
  intros H. unfold _cycle. cbn [bind modify gets].
  change (_cycleEntered (set_restarting false st)) with (_cycleEntered st).
  destruct (Z.ltb_spec 0 (_cycleEntered st)); [reflexivity | lia].
Qed.

(** *** Independence from [walkerCacheGap]

    [gapIndep m]: changing [_walkerCacheGap] before [m] or after it is the
    same. *)
Definition gapIndep {A} (m : Comp A) : Prop :=
  forall g st,
    m (set_walkerCacheGap g st) =
    (fst (m st), set_walkerCacheGap g (snd (m st))).

Lemma gapIndep_ret {A} (a : A) : gapIndep (ret a).
Proof. intros g st. reflexivity. Qed.

Lemma gapIndep_throw {A} e : gapIndep (@throw W VE A e).
Proof. intros g st. reflexivity. Qed.

Lemma gapIndep_outOfFuel {A} : gapIndep (@outOfFuel W VE A).
Proof. intros g st. reflexivity. Qed.

Lemma gapIndep_gets {A} (f : State -> A) :
  (forall g st, f (set_walkerCacheGap g st) = f st) -> gapIndep (gets f).
Proof. intros Hf g st. unfold gets. simpl. rewrite Hf. reflexivity. Qed.

Lemma gapIndep_modify (f : State -> State) :
  (forall g st, f (set_walkerCacheGap g st) = set_walkerCacheGap g (f st)) ->
  gapIndep (modify f).
Proof. intros Hf g st. unfold modify. simpl. rewrite Hf. reflexivity. Qed.

Lemma gapIndep_bind {A B} (m : Comp A) (f : A -> Comp B) :
  gapIndep m -> (forall a, gapIndep (f a)) -> gapIndep (bind m f).
Proof.
  intros Hm Hf g st. unfold bind. rewrite Hm.
  destruct (m st) as [[a | e |] st1]; simpl; try reflexivity.
  apply Hf.
Qed.

Create HintDb gap.

Ltac gap_step :=
  match goal with
  | |- gapIndep (bind _ _) => simple apply @gapIndep_bind; [ | intros ]
  | |- gapIndep (ret _) => simple apply @gapIndep_ret
  | |- gapIndep (throw _) => simple apply @gapIndep_throw
  | |- gapIndep outOfFuel => simple apply @gapIndep_outOfFuel
  | |- gapIndep (gets _) => simple apply @gapIndep_gets; intros; reflexivity
  | |- gapIndep (modify _) => simple apply @gapIndep_modify; intros; reflexivity
  | |- gapIndep (match ?x with _ => _ end) => destruct x
  | |- gapIndep _ => solve [eauto with gap]
  end.

Ltac gap_tac := repeat gap_step.

Lemma gapIndep_emit n : gapIndep (emit n).
Proof. unfold emit. gap_tac. Qed.
Hint Resolve gapIndep_emit : gap.

Lemma gapIndep_setNodeProperty n k v : gapIndep (_setNodeProperty n k v).
Proof. unfold _setNodeProperty. gap_tac. Qed.
Hint Resolve gapIndep_setNodeProperty : gap.

Lemma gapIndep_setWorkingState s d : gapIndep (_setWorkingState s d).
Proof.
  intros g st. unfold _setWorkingState.
  change (_workingState (set_walkerCacheGap g st)) with (_workingState st).
  destruct (bool_decide (_workingState st = s)); simpl;
    change (_partDone (set_walkerCacheGap g st)) with (_partDone st);
    destruct (Qeq_bool _ d); reflexivity.
Qed.
Hint Resolve gapIndep_setWorkingState : gap.

Lemma gapIndep_stop s : gapIndep (_stop s).
Proof. unfold _stop. gap_tac. Qed.
Hint Resolve gapIndep_stop : gap.

Lemma gapIndep_processError e : gapIndep (_processError e).
Proof. unfold _processError. gap_tac. Qed.
Hint Resolve gapIndep_processError : gap.

Lemma gapIndep_processEventResult results n ix :
  gapIndep (_processEventResult results n ix).
Proof. induction results; simpl; gap_tac. Qed.
Hint Resolve gapIndep_processEventResult : gap.

Lemma gapIndep_fireAndProcessEvent w ev el ix :
  gapIndep (_fireAndProcessEvent w ev el ix).
Proof. unfold _fireAndProcessEvent. gap_tac. Qed.
Hint Resolve gapIndep_fireAndProcessEvent : gap.

Lemma gapIndep_setPossibleDueToWildcard n w eventName ns name :
  gapIndep (_setPossibleDueToWildcard n w eventName ns name).
Proof. unfold _setPossibleDueToWildcard. gap_tac. Qed.
Hint Resolve gapIndep_setPossibleDueToWildcard : gap.

Lemma gapIndep_fireAttributeNameEvent w el attrRef attr :
  gapIndep (_fireAttributeNameEvent w el attrRef attr).
Proof. unfold _fireAttributeNameEvent. gap_tac. Qed.
Hint Resolve gapIndep_fireAttributeNameEvent : gap.

Lemma gapIndep_fireAttributeLoop attrs : forall w el i,
  gapIndep (fireAttributeLoop w el i attrs).
Proof. induction attrs; intros; simpl; gap_tac. Qed.
Hint Resolve gapIndep_fireAttributeLoop : gap.

Lemma gapIndep_onLiveWalker f :
  (forall w, gapIndep (f w)) -> gapIndep (onLiveWalker f).
Proof. intros Hf. unfold onLiveWalker. gap_tac. Qed.

Lemma gapIndep_definePrefixLoop curEl attrs :
  gapIndep (definePrefixLoop curEl attrs).
Proof.
  induction attrs; simpl; gap_tac; apply gapIndep_onLiveWalker; intros; gap_tac.
Qed.
Hint Resolve gapIndep_definePrefixLoop : gap.

Lemma gapIndep_stageStartTag q : gapIndep (stageStartTag q).
Proof.
  unfold stageStartTag, eventsLength, _fireAttributeEvents.
  gap_tac; apply gapIndep_onLiveWalker; intros; gap_tac.
Qed.
Hint Resolve gapIndep_stageStartTag : gap.

Lemma gapIndep_flushText acc accNode : gapIndep (flushText acc accNode).
Proof. unfold flushText. gap_tac. Qed.
Hint Resolve gapIndep_flushText : gap.

Lemma gapIndep_contentsLoop q parent rest : forall i acc accNode,
  gapIndep (contentsLoop q parent i rest acc accNode).
Proof. induction rest; intros; simpl; gap_tac. Qed.
Hint Resolve gapIndep_contentsLoop : gap.

Lemma gapIndep_stageContents q : gapIndep (stageContents q).
Proof. unfold stageContents. gap_tac. Qed.
Hint Resolve gapIndep_stageContents : gap.

Lemma gapIndep_finishDocument : gapIndep finishDocument.
Proof. unfold finishDocument, eventsLength, _runDocumentValidation. gap_tac. Qed.
Hint Resolve gapIndep_finishDocument : gap.

Lemma gapIndep_closeElement q curEl parent :
  gapIndep (closeElement q curEl parent).
Proof.
  unfold closeElement, eventsLength.
  gap_tac; apply gapIndep_onLiveWalker; intros; gap_tac.
Qed.
Hint Resolve gapIndep_closeElement : gap.

Lemma gapIndep_stageEndTag q : gapIndep (stageEndTag q).
Proof. unfold stageEndTag. gap_tac. Qed.
Hint Resolve gapIndep_stageEndTag : gap.

Lemma gapIndep_cycle : gapIndep _cycle.
Proof. unfold _cycle. gap_tac. Qed.
Hint Resolve gapIndep_cycle : gap.

Lemma gapIndep_runToCompletion fuel : gapIndep (runToCompletion fuel).
Proof. induction fuel; simpl; gap_tac. Qed.

(** The walker [readyWalker] returns is computed before the gap is looked
    at. *)
Lemma readyWalker_result_gap ei g st :
  fst (readyWalker ei (set_walkerCacheGap g st)) = fst (readyWalker ei st).
Proof.
  unfold readyWalker. destruct ei as [[n | b] |]; try reflexivity.
  cbn [bind gets].
  change (_walkerCache (set_walkerCacheGap g st)) with (_walkerCache st).
  change (_walkerCacheMax (set_walkerCacheGap g st)) with (_walkerCacheMax st).
  destruct (_walkerCache st !! Z.of_nat n); [reflexivity |].
  destruct (findBase _ _ n) as [w0 searchIx].
  cbn [bind gets].
  change (_validationEvents (set_walkerCacheGap g st)) with (_validationEvents st).
  unfold liftOutcome. cbn [bind].
  destruct (replayLoop _ w0 searchIx _) as [w | e |]; try reflexivity.
  cbn [bind gets modify ret].
  change (_walkerCacheGap (set_walkerCacheGap g st)) with g.
  destruct (g <=? _); destruct (_walkerCacheGap st <=? _); reflexivity.
Qed.

(** A snapshot enters the cache only after a replay at least as long as the
    gap. *)
Lemma readyWalker_inserts ei st r st' :
  readyWalker ei st = (r, st') ->
  _walkerCache st' = _walkerCache st
  \/ exists n w,
      ei = Some (PNum n)
      /\ r = Ret w
      /\ _walkerCache st' = <[Z.of_nat n := w]> (_walkerCache st)
      /\ _walkerCacheGap st <=
         Z.of_nat n - snd (findBase (_walkerCache st) (_walkerCacheMax st) n).
Proof.
  unfold readyWalker. destruct ei as [[n | b] |];
    try (intros [= <- <-]; left; reflexivity).
  cbn [bind gets].
  destruct (_walkerCache st !! Z.of_nat n);
    [intros [= <- <-]; left; reflexivity |].
  destruct (findBase _ _ n) as [w0 searchIx] eqn:Ef.
  cbn [bind gets]. unfold liftOutcome. cbn [bind].
  destruct (replayLoop _ w0 searchIx _) as [w | e |];
    try (intros [= <- <-]; left; reflexivity).
  cbn [bind gets modify ret].
  destruct (Z.leb_spec (_walkerCacheGap st) (Z.of_nat n - searchIx)).
  - cbn [bind gets modify ret]. intros [= <- <-].
    right. exists n, w. simpl. rewrite Ef. auto.
  - cbn [bind gets modify ret]. intros [= <- <-]. left. reflexivity.
Qed.

Definition withGap (g : Z) (o : Options) : Options :=
  mkOptions (opt_prefix o) (opt_timeout o) (opt_maxTimespan o) (Some g).

(** C2.  Two validators built on the same document with two values of
    [walkerCacheGap] that are not negative run to completion with the same
    outcome, the same errors, the same event log and the same working state.
    The gap only decides what [readyWalker] caches: the walker it returns does
    not depend on the gap, and it puts a walker in the cache only when the
    replay just made is at least as long as the gap. *)
Theorem C2_walkerCacheGap_only_affects_caching
        (doc : Node) (store : gmap (NodeRef * string) PropVal)
        (options : Options) (g1 g2 : Z) :
  0 <= g1 -> 0 <= g2 ->
  acceptableOpt (opt_timeout options) ->
  acceptableOpt (opt_maxTimespan options) ->
  exists st1 st2,
    newValidator doc store (withGap g1 options) = Ret st1
    /\ newValidator doc store (withGap g2 options) = Ret st2
    /\ (forall fuel,
           fst (runToCompletion fuel st1) = fst (runToCompletion fuel st2)
           /\ _errors (snd (runToCompletion fuel st1))
              = _errors (snd (runToCompletion fuel st2))
           /\ _validationEvents (snd (runToCompletion fuel st1))
              = _validationEvents (snd (runToCompletion fuel st2))
           /\ _workingState (snd (runToCompletion fuel st1))
              = _workingState (snd (runToCompletion fuel st2)))
    /\ (forall st ei g,
           fst (readyWalker ei (set_walkerCacheGap g st)) = fst (readyWalker ei st))
    /\ (forall st ei r st',
           readyWalker ei st = (r, st') ->
           _walkerCache st' <> _walkerCache st ->
           exists n,
             ei = Some (PNum n)
             /\ _walkerCacheGap st <=
                Z.of_nat n
                - snd (findBase (_walkerCache st) (_walkerCacheMax st) n)).
Proof.
  intros Hg1 Hg2 Ht Hm.
  destruct (newValidator_accepts doc store (withGap g1 options))
    as (st1 & E1 & _); simpl; auto.
  destruct (newValidator_accepts doc store (withGap g2 options))
    as (st2 & E2 & _); simpl; auto.
  exists st1, st2. split; [exact E1 |]. split; [exact E2 |].
  assert (Hst : st2 = set_walkerCacheGap g2 st1).
  { revert E1 E2. unfold newValidator, withGap. simpl.
    destruct (checkOption K_timeout (opt_timeout options) 200);
      try discriminate.
    destruct (checkOption K_maxTimespan (opt_maxTimespan options) 100);
      try discriminate.
    unfold checkOption.
    destruct (g1 <? 0); [discriminate |]. destruct (g2 <? 0); [discriminate |].
    intros [= <-] [= <-]. reflexivity. }
  split; [| split].
  - intros fuel. rewrite Hst, gapIndep_runToCompletion. simpl. auto.
  - intros st ei g. apply readyWalker_result_gap.
  - intros st ei r st' E Hne.
    destruct (readyWalker_inserts _ _ _ _ E) as [Hsame | (n & w & -> & _ & _ & Hgap)].
    + contradiction.
    + exists n. auto.
Qed.

(** *** The cache of walkers *)

(** The walker after the events [evs] fired on [w]. *)
Definition replay (w : W) (evs : list Event) : W :=
  fold_left (fun w e => fst (fireEvent w e)) evs w.

(** Every walker in the cache is the walker after the events of the log
    before its index. *)
Definition cacheSound st : Prop :=
  forall i w,
    _walkerCache st !! i = Some w ->
    0 <= i <= Z.of_nat (length (_validationEvents st))
    /\ w = replay newWalker (take (Z.to_nat i) (_validationEvents st)).

Lemma replay_app w l1 l2 : replay w (l1 ++ l2) = replay (replay w l1) l2.
Proof. unfold replay. apply fold_left_app. Qed.

Lemma replayLoop_ret events : forall k w ix w',
  replayLoop events w (Z.of_nat ix) k = Ret w' ->
  w' = replay w (take k (drop ix events))
  /\ (k = 0%nat \/ (ix + k <= length events)%nat).
Proof.
  induction k as [| k IH]; intros w ix w'; simpl.
  - intros [= <-]. auto.
  - unfold eventAt. destruct (Z.ltb_spec (Z.of_nat ix) 0); [lia |].
    rewrite Nat2Z.id.
    destruct (events !! ix) as [ev |] eqn:Hev; [| discriminate].
    replace (Z.of_nat ix + 1) with (Z.of_nat (S ix)) by lia.
    intros Hrec. apply IH in Hrec as [-> Hlen].
    rewrite (drop_S _ _ _ Hev). simpl. split; [reflexivity |].
    right. apply lookup_lt_Some in Hev. destruct Hlen as [-> | Hlen]; lia.
Qed.

Lemma scanCache_spec (cache : gmap Z W) : forall n found searchIx,
  scanCache cache n = (found, searchIx) ->
  match found with
  | Some w => cache !! searchIx = Some w /\ 0 <= searchIx < Z.of_nat n
  | None => True
  end.
Proof.
  induction n as [| n IH]; intros found searchIx; simpl.
  - intros [= <- <-]. exact I.
  - destruct (cache !! Z.of_nat n) as [w |] eqn:E.
    + intros [= <- <-]. split; [exact E | lia].
    + intros H. apply IH in H. destruct found; [| exact I].
      destruct H. split; [assumption | lia].
Qed.

(** Where [readyWalker] starts from: a walker that is the replay of the log
    up to an index not after the one asked for. *)
Lemma findBase_sound st n w0 searchIx :
  cacheSound st ->
  findBase (_walkerCache st) (_walkerCacheMax st) n = (w0, searchIx) ->
  0 <= searchIx <= Z.of_nat n
  /\ (Z.to_nat searchIx <= length (_validationEvents st))%nat
  /\ w0 = replay newWalker (take (Z.to_nat searchIx) (_validationEvents st)).
Proof.
  intros Hc. unfold findBase.
  destruct (Z.leb_spec (_walkerCacheMax st) (Z.of_nat n)) as [Hmax | Hmax].
  - destruct (_walkerCache st !! _walkerCacheMax st) as [w |] eqn:E.
    + intros [= <- <-]. destruct (Hc _ _ E) as [Hr Hw].
      split; [lia |]. split; [lia | exact Hw].
    + intros [= <- <-]. simpl. split; [lia |]. split; [lia | reflexivity].
  - destruct (scanCache (_walkerCache st) n) as [found ix] eqn:E.
    apply scanCache_spec in E. destruct found as [w |].
    + destruct E as [E Hix]. intros [= <- <-]. destruct (Hc _ _ E) as [Hr Hw].
      split; [lia |]. split; [lia | exact Hw].
    + intros [= <- <-]. simpl. split; [lia |]. split; [lia | reflexivity].
Qed.

(** Whatever the cache holds and whatever the gap, [readyWalker] returns the
    walker after the first [n] events of the log, and keeps the cache
    sound. *)
Lemma readyWalker_sound n st w st' :
  cacheSound st ->
  readyWalker (Some (PNum n)) st = (Ret w, st') ->
  (n <= length (_validationEvents st))%nat
  /\ w = replay newWalker (take n (_validationEvents st))
  /\ cacheSound st'
  /\ _validationEvents st' = _validationEvents st.
Proof.
  intros Hc. unfold readyWalker. cbn [bind gets].
  destruct (_walkerCache st !! Z.of_nat n) as [wc |] eqn:Ehit.
  - intros [= <- <-]. destruct (Hc _ _ Ehit) as [Hr Hw].
    rewrite Nat2Z.id in Hw. split; [lia |]. auto.
  - destruct (findBase _ _ n) as [w0 searchIx] eqn:Ef.
    destruct (findBase_sound _ _ _ _ Hc Ef) as (Hix & Hlen & Hw0).
    cbn [bind gets]. unfold liftOutcome. cbn [bind].
    rewrite <- (Z2Nat.id searchIx) at 1 by lia.
    destruct (replayLoop _ w0 _ _) as [w1 | e |] eqn:Er; try discriminate.
    apply replayLoop_ret in Er as [Hw1 Hk].
    assert (Hn : (n <= length (_validationEvents st))%nat).
    { destruct Hk as [Hk | Hk]; lia. }
    assert (Hsound : w1 = replay newWalker (take n (_validationEvents st))).
    { rewrite Hw1, Hw0, <- replay_app, take_take_drop.
      f_equal. f_equal. lia. }
    cbn [bind gets modify ret].
    destruct (_walkerCacheGap st <=? Z.of_nat n - searchIx);
      cbn [bind gets modify ret]; intros [= <- <-].
    + split; [exact Hn |]. split; [exact Hsound |]. split; [| reflexivity].
      intros i wi. simpl. rewrite lookup_insert.
      case_decide as Hi.
      * intros [= <-]. subst i. rewrite Nat2Z.id. split; [lia | exact Hsound].
      * apply Hc.
    + auto.
Qed.

(** The log has grown, the cache has not changed. *)
Definition logExtended : relation State :=
  fun st st' =>
    (exists l, _validationEvents st' = (_validationEvents st ++ l)%list)
    /\ _walkerCache st' = _walkerCache st.

#[local] Instance logExtended_preorder : PreOrder logExtended.
Proof.
  split.
  - intros st. split; [exists []; symmetry; apply app_nil_r | reflexivity].
  - intros a b c [[l1 H1] C1] [[l2 H2] C2]. split.
    + exists (l1 ++ l2)%list. rewrite H2, H1, app_assoc. reflexivity.
    + congruence.
Qed.

Ltac by_log lem :=
  eapply lem;
  first [ tc_solve
        | intros; split; [exists []; symmetry; apply app_nil_r | reflexivity]
        | intros; split; [eexists; reflexivity | reflexivity] ].

Lemma cacheSound_extended st st' :
  logExtended st st' -> cacheSound st -> cacheSound st'.
Proof.
  intros [[l Hl] Hcache] Hc i w. rewrite Hcache, Hl. intros Hi.
  destruct (Hc _ _ Hi) as [Hr Hw]. rewrite length_app. split; [lia |].
  rewrite take_app_le by lia. exact Hw.
Qed.

(** *** Locations already reached *)

(** The validation has reached the location: the property [_validateUpTo]
    waits for, if any, is recorded. *)
Definition reached st (container : NodeRef) (index : Z) (attributes : bool)
  : Prop :=
  match upToTarget (root st) container index attributes with
  | Ret (UpToProperty n k) => is_Some (getNodeProperty st n k)
  | _ => True
  end.

Lemma validateUpTo_reached fuel container index attributes st :
  reached st container index attributes ->
  exists r, _validateUpTo fuel container index attributes st = (r, st).
Proof.
  unfold reached, _validateUpTo. cbn [bind gets]. unfold liftOutcome. cbn [bind].
  destruct (attributesCheck _ _ _ _) as [[] | e |]; try (eexists; reflexivity).
  destruct (upToTarget _ _ _ _) as [[| n k] | e |]; try (eexists; reflexivity).
  intros H. exists (Ret tt). apply validateLoop_reached. exact H.
Qed.

Lemma validateUpTo_ret fuel container index attributes st st' :
  _validateUpTo fuel container index attributes st = (Ret tt, st') ->
  attributesCheck (root st) container index attributes = Ret tt
  /\ exists t,
      upToTarget (root st) container index attributes = Ret t
      /\ match t with
         | UpToNothing => st' = st
         | UpToProperty n k => is_Some (getNodeProperty st' n k)
         end.
Proof.
  unfold _validateUpTo. cbn [bind gets]. unfold liftOutcome. cbn [bind].
  destruct (attributesCheck _ _ _ _) as [[] | e |]; try discriminate.
  destruct (upToTarget _ _ _ _) as [[| n k] | e |]; try discriminate.
  - intros [= <-]. split; [reflexivity |]. exists UpToNothing. auto.
  - intros H. split; [reflexivity |]. exists (UpToProperty n k).
    split; [reflexivity |]. eapply validateLoop_ret; exact H.
Qed.

(** What is outside the cache of walkers. *)
Definition liveView st :=
  (_errors st, _validationEvents st, expando st, _validationWalker st,
   root st, _prefix st, _walkerCacheGap st, _events st, _workingState st).

Lemma getWalkerAt_reached_frame fuel p index st r st' :
  reached st (NodeAt p) index false ->
  _getWalkerAt fuel (NodeAt p) index false st = (r, st') ->
  liveView st' = liveView st.
Proof.
  intros Hreached. unfold _getWalkerAt. cbn [bind gets].
  unfold attributesCheck, liftOutcome. cbn [bind].
  destruct (validateUpTo_reached fuel _ _ _ _ Hreached) as [r0 E].
  destruct r0 as [[] | e |].
  - rewrite (bind_eq _ _ _ _ _ E).
    assert (Hp : preserves (keep liveView)
                           (walkerAtLocation (NodeAt p) index false))
      by (by_frame @frame_walkerAtNode).
    intros Hw. exact (Hp _ _ _ Hw).
  - rewrite (bind_throw _ _ _ _ _ E). intros [= <- <-]. reflexivity.
  - rewrite (bind_outOfFuel _ _ _ _ E). intros [= <- <-]. reflexivity.
Qed.

(** The live validator is touched by [speculativelyValidate] through
    [_getWalkerAt] only: the fragment is validated by a validator of its
    own, on a tree of its own. *)
Lemma speculativelyValidate_live fuel container index toParse st r st' :
  speculativelyValidate fuel container index toParse st = (r, st') ->
  st' = st
  \/ exists r0, _getWalkerAt fuel container index false st = (r0, st').
Proof.
  unfold speculativelyValidate, speculativelyValidateFragment.
  unfold liftOutcome. cbn [bind].
  destruct (match toParse with
            | OneNode n => inserted n
            | ManyNodes ns => insertedAll ns
            end) as [cs | e |]; try (intros [= <- <-]; left; reflexivity).
  cbn [isElement negb].
  destruct (newValidator _ _ _) as [dup | e |];
    try (intros [= <- <-]; left; reflexivity).
  intros H. right.
  destruct (bind_inv _ _ _ _ _ H) as [(w & st1 & E1 & E2) | [(e & E & ->) | [E ->]]];
    eauto.
  exists (Ret w). rewrite E1. f_equal.
  revert E2.
  destruct (_validateUpTo _ _ _ _ _) as [[[] | e |] dup'].
  - destruct (0 <? _)%nat; intros [= <- <-]; reflexivity.
  - intros [= <- <-]. reflexivity.
  - intros [= <- <-]. reflexivity.
Qed.

(** The claim of isolation as the specification words it, for every live
    validator, location and fragment. *)
Definition speculativeIsolation : Prop :=
  forall fuel container index toParse st r st',
    speculativelyValidate fuel container index toParse st = (r, st') ->
    _errors st' = _errors st
    /\ length (_validationEvents st') = length (_validationEvents st)
    /\ expando st' = expando st.


(** *** Asking twice *)

Lemma replayLoop_total events : forall k w ix,
  (ix + k <= length events)%nat ->
  exists w', replayLoop events w (Z.of_nat ix) k = Ret w'.
Proof.
  induction k as [| k IH]; intros w ix Hlen; simpl.
  - eauto.
  - unfold eventAt. destruct (Z.ltb_spec (Z.of_nat ix) 0); [lia |].
    rewrite Nat2Z.id.
    destruct (lookup_lt_is_Some_2 events ix) as [ev Hev]; [lia |].
    rewrite Hev. replace (Z.of_nat ix + 1) with (Z.of_nat (S ix)) by lia.
    apply IH. lia.
Qed.

Lemma readyWalker_total n st :
  cacheSound st ->
  (n <= length (_validationEvents st))%nat ->
  exists w st', readyWalker (Some (PNum n)) st = (Ret w, st').
Proof.
  intros Hc Hn. unfold readyWalker. cbn [bind gets].
  destruct (_walkerCache st !! Z.of_nat n) as [wc |]; [eauto |].
  destruct (findBase _ _ n) as [w0 searchIx] eqn:Ef.
  destruct (findBase_sound _ _ _ _ Hc Ef) as (Hix & Hlen & Hw0).
  cbn [bind gets]. unfold liftOutcome. cbn [bind].
  destruct (replayLoop_total (_validationEvents st)
                             (Z.to_nat (Z.of_nat n - searchIx)) w0
                             (Z.to_nat searchIx)) as [w1 E]; [lia |].
  rewrite Z2Nat.id in E by lia.
  rewrite E. cbn [bind gets modify ret].
  destruct (_walkerCacheGap st <=? _); cbn [bind gets modify ret]; eauto.
Qed.

Lemma readyWalker_frame ei st r st' :
  readyWalker ei st = (r, st') -> liveView st' = liveView st.
Proof.
  assert (Hp : preserves (keep liveView) (readyWalker ei))
    by (by_frame @frame_readyWalker).
  intros H. exact (Hp _ _ _ H).
Qed.

(** Asked again for the same index, later in the same pass, [readyWalker]
    returns the same walker. *)
Lemma readyWalker_again ei st w st1 st' :
  cacheSound st ->
  readyWalker ei st = (Ret w, st1) ->
  cacheSound st' ->
  (exists l, _validationEvents st' = (_validationEvents st ++ l)%list) ->
  exists st2,
    readyWalker ei st' = (Ret w, st2)
    /\ cacheSound st2
    /\ liveView st2 = liveView st'.
Proof.
  intros Hc H Hc' [l Hl].
  destruct ei as [[n | b] |]; try discriminate H.
  destruct (readyWalker_sound _ _ _ _ Hc H) as (Hn & Hw & _ & _).
  destruct (readyWalker_total n st' Hc') as (w' & st2 & E).
  { rewrite Hl, length_app. lia. }
  destruct (readyWalker_sound _ _ _ _ Hc' E) as (_ & Hw' & Hc2 & _).
  exists st2. split; [| split; [exact Hc2 | eapply readyWalker_frame; exact E]].
  rewrite E. f_equal. f_equal. rewrite Hw', Hw, Hl.
  rewrite take_app_le by lia. reflexivity.
Qed.

(** The shape the cases of [_getWalkerAt] share when they publish nothing:
    read an index on a node, get the walker for it, finish on a clone. *)
Definition locQuery (f : State -> option PropVal) (finish : W -> W) : Comp W :=
  do ei <- gets f;
  do walker <- readyWalker ei;
  ret (finish walker).

Lemma locQuery_twice f finish st w st1 :
  (forall sa sb, liveView sb = liveView sa -> f sb = f sa) ->
  cacheSound st ->
  locQuery f finish st = (Ret w, st1) ->
  liveView st1 = liveView st
  /\ exists st2,
      locQuery f finish st1 = (Ret w, st2)
      /\ liveView st2 = liveView st1.
Proof.
  intros Hf Hc. unfold locQuery. cbn [bind gets]. intros H.
  apply bind_ret_inv in H as (w0 & sta & E & H).
  cbn [ret] in H. injection H as <- <-.
  pose proof (readyWalker_frame _ _ _ _ E) as Hv.
  split; [exact Hv |].
  assert (Hca : cacheSound sta /\ _validationEvents sta = _validationEvents st).
  { destruct (f st) as [[n | b] |]; try discriminate E.
    destruct (readyWalker_sound _ _ _ _ Hc E) as (_ & _ & Hca & Hev). auto. }
  destruct Hca as [Hca Hev].
  destruct (readyWalker_again _ _ _ _ sta Hc E Hca) as (st2 & E2 & _ & Hv2).
  { exists []. rewrite Hev. symmetry. apply app_nil_r. }
  exists st2. rewrite (Hf _ _ Hv).
  rewrite (bind_eq _ _ _ _ _ E2). cbn [ret]. auto.
Qed.

Lemma walkerInText_locQuery doc i parent data index :
  walkerInText doc i parent data index =
  locQuery (fun st =>
              match previousElementSibling (childrenAt doc parent) i with
              | Some j => getNodeProperty st (NodeAt (j :: parent)) EventIndexAfter
              | None => getNodeProperty st (NodeAt parent) EventIndexAfterStart
              end)
           (fun walker =>
              if 0 <? index then fireTextEvent (clone walker) data else walker).
Proof. unfold walkerInText, locQuery. destruct (0 <? index); reflexivity. Qed.

Lemma walkerInContainer_locQuery p cs index attributes :
  exists f finish,
    walkerInContainer p cs index attributes = locQuery f finish
    /\ forall sa sb, liveView sb = liveView sa -> f sb = f sa.
Proof.
  assert (Hf : forall (g : State -> option PropVal) (finish : W -> W),
             (forall sa sb, liveView sb = liveView sa -> g sb = g sa) ->
             exists f finish0,
               locQuery g finish = locQuery f finish0
               /\ forall sa sb, liveView sb = liveView sa -> f sb = f sa).
  { intros g finish Hg. exists g, finish. auto. }
  assert (Hprop : forall (n : NodeRef) k sa sb,
             liveView sb = liveView sa ->
             getNodeProperty sb n k = getNodeProperty sa n k).
  { intros n k sa sb Hv. unfold liveView in Hv.
    injection Hv as _ _ Hexp _ _ Hpre _ _ _.
    unfold getNodeProperty, makeKey. rewrite Hexp, Hpre. reflexivity. }
  unfold walkerInContainer.
  set (node := childAt cs index).
  set (prev := match node with
               | Some (i, _) => previousElementSibling cs i
               | None => lastElementChild cs
               end).
  destruct attributes; cbn [negb].
  - apply (Hf _ (fun w => w)). intros sa sb Hv. destruct node as [[i n] |]; auto.
  - assert (Hg : forall sa sb,
               liveView sb = liveView sa ->
               match prev with
               | Some j => getNodeProperty sb (NodeAt (j :: p)) EventIndexAfter
               | None => getNodeProperty sb (NodeAt p) EventIndexAfterStart
               end =
               match prev with
               | Some j => getNodeProperty sa (NodeAt (j :: p)) EventIndexAfter
               | None => getNodeProperty sa (NodeAt p) EventIndexAfterStart
               end).
    { intros sa sb Hv. destruct prev; auto. }
    destruct node as [[[| k] n] |].
    + apply (Hf _ (fun w => w)), Hg.
    + destruct (bool_decide (prev = Some k)).
      * apply (Hf _ (fun w => w)), Hg.
      * destruct (cs !! k) as [[t a l | data | d | l | l | o] |];
          first [ apply (Hf _ (fun w => w)), Hg
                | apply (Hf _ (fun w => fireTextEvent (clone w) data)), Hg ].
    + apply (Hf _ (fun w => w)), Hg.
Qed.

(** What [_fireAndProcessEvent] does, in one equation. *)
Definition errorsOf (r : option (list VE)) : list VE :=
  match r with Some errs => errs | None => [] end.

Lemma fireAndProcessEvent_eq w ev el ix st :
  _fireAndProcessEvent w ev el ix st =
  (Ret (fst (fireEvent w ev)),
   pushErrors (map (fun r => mkErrorData r el ix) (errorsOf (snd (fireEvent w ev))))
              (set_validationEvents (_validationEvents st ++ [ev]) st)).
Proof.
  unfold _fireAndProcessEvent. cbn [bind modify].
  destruct (fireEvent w ev) as [w' [errs |]]; simpl.
  - rewrite (bind_eq _ _ _ _ _ (processEventResult_eq _ _ _ _)). reflexivity.
  - rewrite pushErrors_nil. reflexivity.
Qed.

Definition attributeNameResult (w : W) (attr : Attr) : W * bool :=
  match resolveName w (attr_name attr) true with
  | None => (w, false)
  | Some ename =>
      (fst (fireEvent w (AttributeName (ename_ns ename) (ename_name ename))), true)
  end.

Lemma setPossibleDueToWildcard_spec n w eventName ns name st :
  exists st',
    _setPossibleDueToWildcard n w eventName ns name st = (Ret tt, st')
    /\ expando st' =
       <[(n, makeKey st PossibleDueToWildcard) :=
           PBool (isPossibleDueToWildcard w eventName ns name)]> (expando st)
    /\ (_errors st', _validationEvents st', _validationWalker st', _walkerCache st',
        _prefix st', root st', _cycleEntered st', _validationStage st',
        _previousChild st', _curEl st', _validationStack st')
       = (_errors st, _validationEvents st, _validationWalker st, _walkerCache st,
          _prefix st, root st, _cycleEntered st, _validationStage st,
          _previousChild st, _curEl st, _validationStack st).
Proof.
  unfold _setPossibleDueToWildcard, _setNodeProperty. cbn [bind gets modify].
  destruct (getNodeProperty st n PossibleDueToWildcard) as [[i | b] |];
    try destruct (Bool.eqb b _);
    eexists; (split; [reflexivity |]); split; reflexivity.
Qed.

Lemma fireAttributeNameEvent_spec w el ref attr st :
  exists st',
    _fireAttributeNameEvent w el ref attr st =
    (Ret (attributeNameResult w attr), st')
    /\ expando st' =
       match resolveName w (attr_name attr) true with
       | None => expando st
       | Some ename =>
           <[(ref, makeKey st PossibleDueToWildcard) :=
               PBool (isPossibleDueToWildcard w "attributeName"
                                              (ename_ns ename) (ename_name ename))]>
             (expando st)
       end
    /\ logExtended st st'
    /\ _prefix st' = _prefix st
    /\ root st' = root st.
Proof.
  unfold _fireAttributeNameEvent, attributeNameResult.
  destruct (resolveName w (attr_name attr) true) as [ename |].
  - destruct (setPossibleDueToWildcard_spec
                ref w "attributeName" (ename_ns ename) (ename_name ename) st)
      as (st1 & E1 & Hexp & Hv).
    rewrite (bind_eq _ _ _ _ _ E1).
    rewrite (bind_eq _ _ _ _ _ (fireAndProcessEvent_eq _ _ _ _ _)).
    cbn [ret]. injection Hv as _ Hev _ Hcache Hpre Hroot _ _ _ _ _.
    eexists. split; [reflexivity |]. simpl.
    split; [exact Hexp |].
    split; [| split; assumption].
    split; [rewrite Hev; eexists; reflexivity | exact Hcache].
  - cbn [bind ret]. rewrite (bind_eq _ _ _ _ _ (processError_eq _ _)).
    cbn [ret]. eexists. split; [reflexivity |]. split; [reflexivity |].
    split; [| split; reflexivity].
    split; [exists []; symmetry; apply app_nil_r | reflexivity].
Qed.

Lemma walkerAtAttribute_twice doc owner ix st w st1 :
  cacheSound st ->
  walkerAtAttribute doc owner ix st = (Ret w, st1) ->
  root st1 = root st
  /\ _prefix st1 = _prefix st
  /\ (forall p k, getNodeProperty st1 (NodeAt p) k = getNodeProperty st (NodeAt p) k)
  /\ exists st2,
      walkerAtAttribute doc owner ix st1 = (Ret w, st2)
      /\ expando st2 = expando st1.
Proof.
  intros Hc. unfold walkerAtAttribute. cbn [bind gets]. intros H.
  apply bind_ret_inv in H as (w0 & sta & E & H).
  pose proof (readyWalker_frame _ _ _ _ E) as Hva.
  assert (Hsa : cacheSound sta /\ _validationEvents sta = _validationEvents st).
  { destruct (getNodeProperty st (NodeAt owner) EventIndexBeforeAttributes)
      as [[n | b] |]; try discriminate E.
    destruct (readyWalker_sound _ _ _ _ Hc E) as (_ & _ & Hca & Hev). auto. }
  destruct Hsa as [Hca Hev].
  unfold liveView in Hva. injection Hva as _ _ Hexp _ Hroot Hpre _ _ _.
  destruct (attrAt doc owner ix) as [attr |]; [| discriminate H].
  destruct (isNamespaceAttr attr).
  - (* a namespace declaration: nothing is fired *)
    cbn [ret] in H. injection H as <- <-.
    split; [exact Hroot |]. split; [exact Hpre |].
    split; [intros; unfold getNodeProperty, makeKey; rewrite Hexp, Hpre; reflexivity |].
    destruct (readyWalker_again _ _ _ _ sta Hc E Hca) as (st2 & E2 & _ & Hv2).
    { exists []. rewrite Hev. symmetry. apply app_nil_r. }
    exists st2.
    replace (getNodeProperty sta (NodeAt owner) EventIndexBeforeAttributes)
      with (getNodeProperty st (NodeAt owner) EventIndexBeforeAttributes)
      by (unfold getNodeProperty, makeKey; rewrite Hexp, Hpre; reflexivity).
    rewrite (bind_eq _ _ _ _ _ E2). cbn [ret].
    unfold liveView in Hv2. injection Hv2 as _ _ Hexp2 _ _ _ _ _ _. auto.
  - (* the attribute name is fired on a clone, by the validator itself *)
    destruct (fireAttributeNameEvent_spec (clone w0) owner (AttrAt owner ix) attr sta)
      as (stb & Eb & Hexpb & Hlogb & Hpreb & Hrootb).
    rewrite (bind_eq _ _ _ _ _ Eb) in H. cbn [ret] in H. injection H as <- <-.
    assert (Hnodes : forall p k,
               getNodeProperty stb (NodeAt p) k = getNodeProperty st (NodeAt p) k).
    { intros p k. unfold getNodeProperty, makeKey. rewrite Hexpb, Hpreb, Hpre.
      destruct (resolveName _ _ _).
      - rewrite lookup_insert_ne by discriminate. rewrite Hexp. reflexivity.
      - rewrite Hexp. reflexivity. }
    split; [congruence |]. split; [congruence |]. split; [exact Hnodes |].
    destruct (readyWalker_again _ _ _ _ stb Hc E) as (stc & Ec & _ & Hvc).
    { eapply cacheSound_extended; eauto. }
    { destruct Hlogb as [[l Hl] _]. exists l. rewrite Hl, Hev. reflexivity. }
    rewrite Hnodes. rewrite (bind_eq _ _ _ _ _ Ec).
    destruct (fireAttributeNameEvent_spec (clone w0) owner (AttrAt owner ix) attr stc)
      as (std & Ed & Hexpd & _ & _ & _).
    rewrite (bind_eq _ _ _ _ _ Ed). cbn [ret].
    exists std. split; [reflexivity |].
    unfold liveView in Hvc. injection Hvc as _ _ Hexpc _ _ Hprec _ _ _.
    rewrite Hexpd. unfold makeKey. rewrite Hexpc, Hprec.
    destruct (resolveName _ _ _); [| reflexivity].
    rewrite Hexpb. unfold makeKey. rewrite Hpreb.
    apply insert_insert_eq.
Qed.

Lemma liveView_fields sa sb :
  liveView sb = liveView sa ->
  root sb = root sa
  /\ expando sb = expando sa
  /\ forall n k, getNodeProperty sb n k = getNodeProperty sa n k.
Proof.
  intros Hv. unfold liveView in Hv. injection Hv as _ _ Hexp _ Hroot Hpre _ _ _.
  split; [exact Hroot |]. split; [exact Hexp |].
  intros n k. unfold getNodeProperty, makeKey. rewrite Hexp, Hpre. reflexivity.
Qed.

Lemma locQuery_twice_fields f finish st w st1 :
  (forall sa sb, liveView sb = liveView sa -> f sb = f sa) ->
  cacheSound st ->
  locQuery f finish st = (Ret w, st1) ->
  root st1 = root st
  /\ (forall p k, getNodeProperty st1 (NodeAt p) k = getNodeProperty st (NodeAt p) k)
  /\ exists st2, locQuery f finish st1 = (Ret w, st2) /\ expando st2 = expando st1.
Proof.
  intros Hf Hc H.
  destruct (locQuery_twice _ _ _ _ _ Hf Hc H) as (Hv & st2 & E2 & Hv2).
  destruct (liveView_fields _ _ Hv) as (Hroot & _ & Hprop).
  destruct (liveView_fields _ _ Hv2) as (_ & Hexp2 & _).
  split; [exact Hroot |]. split; [intros; apply Hprop |]. eauto.
Qed.

(** The part of [_getWalkerAt] after the forced validation, run twice. *)
Lemma walkerAtLocation_twice container index attributes st w st1 :
  cacheSound st ->
  walkerAtLocation container index attributes st = (Ret w, st1) ->
  root st1 = root st
  /\ (forall p k, getNodeProperty st1 (NodeAt p) k = getNodeProperty st (NodeAt p) k)
  /\ exists st2,
      walkerAtLocation container index attributes st1 = (Ret w, st2)
      /\ expando st2 = expando st1.
Proof.
  intros Hc. unfold walkerAtLocation. cbn [bind gets].
  destruct (isRoot container && (index <=? 0) && negb attributes).
  - destruct (index =? 0).
    + intros [= <- <-]. split; [reflexivity |]. split; [reflexivity |]. eauto.
    + intros [= <- <-]. split; [reflexivity |]. split; [reflexivity |]. eauto.
  - destruct container as [p | owner ix].
    + destruct (nodeAt (root st) p) as [[t a l | data | d | l | l | o] |] eqn:En;
        try discriminate.
      * destruct (walkerInContainer_locQuery p l index attributes)
          as (f & finish & Eq & Hf).
        rewrite Eq. intros H.
        destruct (locQuery_twice_fields _ _ _ _ _ Hf Hc H) as (Hroot & Hprop & Hex).
        rewrite Hroot, En, Eq. auto.
      * destruct p as [| i parent]; [discriminate |].
        rewrite walkerInText_locQuery. intros H.
        assert (Hf : forall sa sb : State,
                   liveView sb = liveView sa ->
                   match previousElementSibling (childrenAt (root st) parent) i with
                   | Some j => getNodeProperty sb (NodeAt (j :: parent)) EventIndexAfter
                   | None => getNodeProperty sb (NodeAt parent) EventIndexAfterStart
                   end =
                   match previousElementSibling (childrenAt (root st) parent) i with
                   | Some j => getNodeProperty sa (NodeAt (j :: parent)) EventIndexAfter
                   | None => getNodeProperty sa (NodeAt parent) EventIndexAfterStart
                   end).
        { intros sa sb Hv. destruct (liveView_fields _ _ Hv) as (_ & _ & Hp).
          destruct (previousElementSibling _ _); apply Hp. }
        destruct (locQuery_twice_fields _ _ _ _ _ Hf Hc H) as (Hroot & Hprop & Hex).
        rewrite Hroot, En, ?Eq, ?walkerInText_locQuery. auto.
      * destruct (walkerInContainer_locQuery p l index attributes)
          as (f & finish & Eq & Hf).
        rewrite Eq. intros H.
        destruct (locQuery_twice_fields _ _ _ _ _ Hf Hc H) as (Hroot & Hprop & Hex).
        rewrite Hroot, En, ?Eq, ?walkerInText_locQuery. auto.
      * destruct (walkerInContainer_locQuery p l index attributes)
          as (f & finish & Eq & Hf).
        rewrite Eq. intros H.
        destruct (locQuery_twice_fields _ _ _ _ _ Hf Hc H) as (Hroot & Hprop & Hex).
        rewrite Hroot, En, Eq. auto.
    + intros H.
      destruct (walkerAtAttribute_twice _ _ _ _ _ _ Hc H)
        as (Hroot & _ & Hprop & Hex).
      rewrite Hroot. auto.
Qed.

Lemma upToTarget_node doc container index attributes n k :
  upToTarget doc container index attributes = Ret (UpToProperty n k) ->
  exists p, n = NodeAt p.
Proof.
  unfold upToTarget, upToInContainer, isRoot.
  case_bool_decide as Hroot; simpl.
  - subst container. destruct (index <=? 0).
    + destruct attributes.
      * destruct (childAt _ _) as [[i c] |]; intros [= <- <-]; eauto.
      * destruct (index =? 0); intros [= <- <-]; eauto.
    + destruct (nodeAt doc []) as [[t a l | data | d | l | l | o] |];
        try discriminate;
        repeat match goal with
               | |- context [match ?x with _ => _ end] => destruct x
               end;
        intros [= <- <-]; eauto.
  - destruct container as [p | owner ix]; [| intros [= <- <-]; eauto].
    destruct (nodeAt doc p) as [[t a l | data | d | l | l | o] |];
      try discriminate;
      repeat match goal with
             | |- context [match ?x with _ => _ end] => destruct x
             end;
      try discriminate; intros [= <- <-]; eauto.
Qed.

Lemma validateUpTo_frame fuel container index attributes st r st' :
  _validateUpTo fuel container index attributes st = (r, st') ->
  root st' = root st /\ _prefix st' = _prefix st /\ logExtended st st'.
Proof.
  intros H.
  assert (H1 : preserves (keep (fun s : State => (root s, _prefix s)))
                         (_validateUpTo fuel container index attributes))
    by (by_frame @frame_validateUpTo).
  assert (H2 : preserves logExtended
                         (_validateUpTo fuel container index attributes))
    by (by_log @frame_validateUpTo).
  pose proof (H1 _ _ _ H) as Hk. injection Hk as Hroot Hpre.
  split; [exact Hroot |]. split; [exact Hpre |]. exact (H2 _ _ _ H).
Qed.

(** C5.  In a validator whose cache of walkers is sound (as it is from the
    constructor on), when [possibleAt] returns a set of events at a location,
    asking again at the same location returns the same set, and the second
    call leaves every property stored on the nodes of the tree as it is. *)
Theorem C5_possibleAt_idempotent
        (fuel fuel' : nat) (container : NodeRef) (index : Z) (attributes : bool)
        st (r1 : list PE) st1 :
  cacheSound st ->
  possibleAt fuel container index attributes st = (Ret r1, st1) ->
  exists st2,
    possibleAt fuel' container index attributes st1 = (Ret r1, st2)
    /\ expando st2 = expando st1.
Proof.
  intros Hc H. unfold possibleAt in H.
  apply bind_ret_inv in H as (w1 & st1' & E & H).
  cbn [ret] in H. injection H as <- <-.
  unfold _getWalkerAt in E. cbn [bind gets] in E.
  unfold liftOutcome at 1 in E. cbn [bind] in E.
  destruct (attributesCheck (root st) container index attributes)
    as [[] | e |] eqn:Echeck; try discriminate E.
  apply bind_ret_inv in E as ([] & stm & Eup & Ewalk).
  destruct (validateUpTo_frame _ _ _ _ _ _ _ Eup) as (Hrootm & Hprem & Hlogm).
  destruct (validateUpTo_ret _ _ _ _ _ _ Eup) as (_ & t & Et & Hreached).
  assert (Hcm : cacheSound stm) by (eapply cacheSound_extended; eauto).
  destruct (walkerAtLocation_twice _ _ _ _ _ _ Hcm Ewalk)
    as (Hroot1 & Hprop1 & st2 & E2 & Hexp2).
  exists st2. split; [| exact Hexp2].
  assert (Eup2 : _validateUpTo fuel' container index attributes st1' = (Ret tt, st1')).
  { unfold _validateUpTo. cbn [bind gets].
    rewrite Hroot1, Hrootm, Echeck, Et. unfold liftOutcome. cbn [bind].
    destruct t as [| n k]; [reflexivity |].
    apply validateLoop_reached.
    destruct (upToTarget_node _ _ _ _ _ _ Et) as [p ->].
    rewrite Hprop1. exact Hreached. }
  assert (Eget : _getWalkerAt fuel' container index attributes st1' = (Ret w1, st2)).
  { unfold _getWalkerAt. cbn [bind gets].
    rewrite Hroot1, Hrootm, Echeck. unfold liftOutcome at 1. cbn [bind].
    rewrite (bind_eq _ _ _ _ _ Eup2). exact E2. }
  unfold possibleAt. rewrite (bind_eq _ _ _ _ _ Eget). reflexivity.
Qed.

(** *** Trees that match the grammar

    The specification has the events of a document fired in document order:
    for an element, the context and namespace events, the start tag, the
    attributes, the contents (one text event for a run of text nodes,
    comments skipped), the end tag and the exit of the context.  A tree
    matches the grammar when no event of this sequence, fired on a new
    walker, reports an error, every name resolves, and the end of the walker
    reports none.  These definitions follow the specification; they are
    compared with the traversal of [_cycle] below. *)

Definition noErrors (r : option (list VE)) : bool :=
  match r with
  | None => true
  | Some [] => true
  | Some (_ :: _) => false
  end.

Definition fireOk (w : W) (ev : Event) : option W :=
  if noErrors (snd (fireEvent w ev)) then Some (fst (fireEvent w ev)) else None.

Fixpoint acceptPrefixes (attrs : list Attr) (w : W) : option W :=
  match attrs with
  | [] => Some w
  | attr :: rest =>
      match (if String.eqb (attr_name attr) "xmlns"
             then fireOk w (DefinePrefix "" (attr_value attr))
             else if startsWith "xmlns:" (attr_name attr)
             then fireOk w (DefinePrefix (slice 6 (attr_name attr)) (attr_value attr))
             else Some w) with
      | Some w' => acceptPrefixes rest w'
      | None => None
      end
  end.

Fixpoint acceptAttributes (attrs : list Attr) (w : W) : option W :=
  match attrs with
  | [] => Some w
  | attr :: rest =>
      if String.eqb (attr_name attr) "xmlns" || startsWith "xmlns" (attr_name attr)
      then acceptAttributes rest w
      else
        match resolveName w (attr_name attr) true with
        | None => None
        | Some ename =>
            match fireOk w (AttributeName (ename_ns ename) (ename_name ename)) with
            | None => None
            | Some w1 =>
                match fireOk w1 (AttributeValue (attr_value attr)) with
                | None => None
                | Some w2 => acceptAttributes rest w2
                end
            end
        end
  end.

Definition acceptStartTag (tag : string) (attrs : list Attr) (w : W) : option W :=
  match fireOk w EnterContext with
  | None => None
  | Some w1 =>
      match acceptPrefixes attrs w1 with
      | None => None
      | Some w2 =>
          match resolveName w2 tag false with
          | None => None
          | Some ename =>
              match fireOk w2 (EnterStartTag (ename_ns ename) (ename_name ename)) with
              | None => None
              | Some w3 =>
                  match acceptAttributes attrs w3 with
                  | None => None
                  | Some w4 => fireOk w4 LeaveStartTag
                  end
              end
          end
      end
  end.

Definition acceptEndTag (tag : string) (w : W) : option W :=
  let ename := match resolveName w tag false with
               | Some ename => ename
               | None => mkEName "" tag
               end in
  match fireOk w (EndTag (ename_ns ename) (ename_name ename)) with
  | None => None
  | Some w1 => fireOk w1 LeaveContext
  end.

Definition acceptText (acc : list string) (w : W) : option W :=
  match acc with
  | [] => Some w
  | _ :: _ => fireOk w (TextEvent (join acc))
  end.

Fixpoint acceptNode (n : Node) (w : W) {struct n} : option W :=
  match n with
  | Element tag attrs cs =>
      match acceptStartTag tag attrs w with
      | None => None
      | Some w1 =>
          match (fix contents (cs : list Node) (acc : list string) (w : W)
                   {struct cs} : option W :=
                   match cs with
                   | [] => acceptText acc w
                   | c :: rest =>
                       match c with
                       | Text data => contents rest (acc ++ [data])%list w
                       | Comment _ => contents rest acc w
                       | Element _ _ _ =>
                           match acceptText acc w with
                           | None => None
                           | Some w1 =>
                               match acceptNode c w1 with
                               | None => None
                               | Some w2 => contents rest [] w2
                               end
                           end
                       | _ => None
                       end
                   end) cs [] w1 with
          | None => None
          | Some w2 => acceptEndTag tag w2
          end
      end
  | _ => None
  end.

Fixpoint acceptContents (cs : list Node) (acc : list string) (w : W)
  : option W :=
  match cs with
  | [] => acceptText acc w
  | c :: rest =>
      match c with
      | Text data => acceptContents rest (acc ++ [data])%list w
      | Comment _ => acceptContents rest acc w
      | Element _ _ _ =>
          match acceptText acc w with
          | None => None
          | Some w1 =>
              match acceptNode c w1 with
              | None => None
              | Some w2 => acceptContents rest [] w2
              end
          end
      | _ => None
      end
  end.

(** The document under [doc] matches the grammar. *)
Definition matchesGrammar (doc : Node) : Prop :=
  exists w,
    acceptContents (childNodes doc) [] newWalker = Some w
    /\ noErrors (snd (walkerEnd w)) = true.

Lemma acceptNode_element tag attrs cs w :
  acceptNode (Element tag attrs cs) w =
  match acceptStartTag tag attrs w with
  | None => None
  | Some w1 =>
      match acceptContents cs [] w1 with
      | None => None
      | Some w2 => acceptEndTag tag w2
      end
  end.
Proof.
  simpl. destruct (acceptStartTag tag attrs w) as [w1 |]; [| reflexivity].
  match goal with
  | |- match ?f cs [] w1 with _ => _ end = _ =>
      assert (Hc : forall l acc w0, f l acc w0 = acceptContents l acc w0)
  end.
  { induction l as [| c rest IH]; intros acc w0; simpl; [reflexivity |].
    destruct c; try reflexivity; try apply IH. }
  rewrite Hc. reflexivity.
Qed.

(** What is left of the document at a point of the traversal: the children
    of [p] from the position [j] on, the end tag of [p], and so on up to the
    root and the end of the walker. *)
Fixpoint acceptRest (doc : Node) (p : Path) (j : nat) (w : W) : bool :=
  match acceptContents (drop j (childrenAt doc p)) [] w with
  | None => false
  | Some w1 =>
      match p with
      | [] => noErrors (snd (walkerEnd w1))
      | i :: parent =>
          match nodeAt doc p with
          | Some (Element tag _ _) =>
              match acceptEndTag tag w1 with
              | Some w2 => acceptRest doc parent (S i) w2
              | None => false
              end
          | _ => false
          end
      end
  end.

(** The number of steps of [_cycle] a subtree takes: two for each element. *)
Fixpoint cyclesIn (n : Node) : nat :=
  match n with
  | Element _ _ cs =>
      S (S ((fix sum (cs : list Node) : nat :=
               match cs with
               | [] => 0
               | c :: rest => cyclesIn c + sum rest
               end) cs))
  | _ => 0
  end%nat.

Fixpoint cyclesOf (cs : list Node) : nat :=
  match cs with
  | [] => 0
  | c :: rest => cyclesIn c + cyclesOf rest
  end%nat.

Lemma cyclesIn_element tag attrs cs :
  cyclesIn (Element tag attrs cs) = S (S (cyclesOf cs)).
Proof. reflexivity. Qed.

(** The number of steps left at a point of the traversal. *)
Fixpoint cyclesLeft (doc : Node) (p : Path) (j : nat) : nat :=
  (cyclesOf (drop j (childrenAt doc p)) +
   match p with
   | [] => 1
   | i :: parent => S (cyclesLeft doc parent (S i))
   end)%nat.

(** *** The traversal of a tree that matches the grammar *)

(** What the events fired without error leave as it is. *)
Definition travView st :=
  (_cycleEntered st, _errors st, _validationStage st, _previousChild st,
   _curEl st, _validationStack st, root st).

Lemma fireWalker_ok w ev el ix st w' :
  fireOk w ev = Some w' ->
  exists st',
    _fireAndProcessEvent w ev el ix st = (Ret w', st')
    /\ _validationWalker st' = _validationWalker st
    /\ travView st' = travView st.
Proof.
  unfold fireOk. intros H. rewrite fireAndProcessEvent_eq.
  destruct (fireEvent w ev) as [w1 r]. simpl in *.
  destruct r as [[| e errs] |]; simpl in H; try discriminate H;
    injection H as <-; simpl; rewrite pushErrors_nil;
    eexists; split; [reflexivity | split; reflexivity
                    | reflexivity | split; reflexivity].
Qed.

Lemma fireLive_ok ev el ix st w' :
  fireOk (_validationWalker st) ev = Some w' ->
  exists st',
    onLiveWalker (fun w => _fireAndProcessEvent w ev el ix) st = (Ret tt, st')
    /\ _validationWalker st' = w'
    /\ travView st' = travView st.
Proof.
  intros H. unfold onLiveWalker. cbn [bind gets].
  destruct (fireWalker_ok _ _ el ix st _ H) as (st1 & E & Hw & Hv).
  rewrite (bind_eq _ _ _ _ _ E). cbn [modify].
  eexists. split; [reflexivity |]. split; [reflexivity |]. exact Hv.
Qed.

Lemma definePrefixLoop_ok curEl attrs : forall st w',
  acceptPrefixes attrs (_validationWalker st) = Some w' ->
  exists st',
    definePrefixLoop curEl attrs st = (Ret tt, st')
    /\ _validationWalker st' = w'
    /\ travView st' = travView st.
Proof.
  induction attrs as [| attr rest IH]; intros st w'; simpl.
  - intros [= <-]. eexists. split; [reflexivity |]. auto.
  - destruct (String.eqb (attr_name attr) "xmlns").
    + destruct (fireOk _ _) as [w1 |] eqn:Ef; [| discriminate].
      intros H.
      destruct (fireLive_ok _ (Some (NodeAt curEl)) (Some 0%nat) _ _ Ef)
        as (st1 & E1 & Hw1 & Hv1).
      rewrite (bind_eq _ _ _ _ _ E1). rewrite <- Hw1 in H.
      destruct (IH _ _ H) as (st2 & E2 & Hw2 & Hv2).
      exists st2. split; [exact E2 |]. split; [exact Hw2 | congruence].
    + destruct (startsWith "xmlns:" (attr_name attr)).
      * destruct (fireOk _ _) as [w1 |] eqn:Ef; [| discriminate].
        intros H.
        destruct (fireLive_ok _ (Some (NodeAt curEl)) (Some 0%nat) _ _ Ef)
          as (st1 & E1 & Hw1 & Hv1).
        rewrite (bind_eq _ _ _ _ _ E1). rewrite <- Hw1 in H.
        destruct (IH _ _ H) as (st2 & E2 & Hw2 & Hv2).
        exists st2. split; [exact E2 |]. split; [exact Hw2 | congruence].
      * intros H. cbn [bind ret]. apply IH. exact H.
Qed.

Lemma setPossibleDueToWildcard_ok n w eventName ns name st :
  exists st',
    _setPossibleDueToWildcard n w eventName ns name st = (Ret tt, st')
    /\ _validationWalker st' = _validationWalker st
    /\ travView st' = travView st.
Proof.
  destruct (setPossibleDueToWildcard_spec n w eventName ns name st)
    as (st' & E & _ & Hv).
  exists st'. split; [exact E |].
  injection Hv as Herr _ Hw _ _ Hroot Hce Hstage Hprev Hcur Hstack.
  split; [exact Hw |]. unfold travView. congruence.
Qed.

Lemma fireAttributeLoop_ok attrs : forall w el i st w',
  acceptAttributes attrs w = Some w' ->
  exists st',
    fireAttributeLoop w el i attrs st = (Ret w', st')
    /\ _validationWalker st' = _validationWalker st
    /\ travView st' = travView st.
Proof.
  induction attrs as [| attr rest IH]; intros w el i st w'; simpl.
  - intros [= <-]. eexists. split; [reflexivity |]. auto.
  - destruct (String.eqb (attr_name attr) "xmlns" || startsWith "xmlns" (attr_name attr)).
    + apply IH.
    + unfold _fireAttributeNameEvent.
      destruct (resolveName w (attr_name attr) true) as [ename |]; [| discriminate].
      destruct (fireOk w _) as [w1 |] eqn:Ef1; [| discriminate].
      destruct (fireOk w1 _) as [w2 |] eqn:Ef2; [| discriminate].
      intros H.
      destruct (setPossibleDueToWildcard_ok
                  (AttrAt el i) w "attributeName" (ename_ns ename) (ename_name ename) st)
        as (st1 & E1 & Hw1 & Hv1).
      destruct (fireWalker_ok _ _ (Some (AttrAt el i)) (Some 0%nat) st1 _ Ef1)
        as (st2 & E2 & Hw2 & Hv2).
      destruct (fireWalker_ok _ _ (Some (AttrAt el i)) (Some 0%nat) st2 _ Ef2)
        as (st3 & E3 & Hw3 & Hv3).
      destruct (IH w2 el (S i) st3 w' H) as (st4 & E4 & Hw4 & Hv4).
      exists st4. split; [| split; congruence].
      assert (Ename : bind
                (bind (_setPossibleDueToWildcard (AttrAt el i) w "attributeName"
                         (ename_ns ename) (ename_name ename))
                   (fun _ =>
                      bind (_fireAndProcessEvent w
                              (AttributeName (ename_ns ename) (ename_name ename))
                              (Some (AttrAt el i)) (Some 0%nat))
                           (fun walker' => ret (walker', true))))
                (fun r =>
                   let (walker1, fired) := r in
                   bind (if fired
                         then _fireAndProcessEvent walker1
                                (AttributeValue (attr_value attr))
                                (Some (AttrAt el i)) (Some 0%nat)
                         else ret walker1)
                        (fun walker2 => fireAttributeLoop walker2 el (S i) rest))
                st = (Ret w', st4)).
      { erewrite bind_eq; [| erewrite bind_eq; [| exact E1];
                             erewrite bind_eq; [| exact E2]; reflexivity].
        cbv beta iota. erewrite bind_eq; [| exact E3]. exact E4. }
      exact Ename.
Qed.

Ltac travView_fields H :=
  unfold travView in H; simpl in H;
  let Hce := fresh "Hce" in
  let Herr := fresh "Herr" in
  let Hstage := fresh "Hstage" in
  let Hprev := fresh "Hprev" in
  let Hcur := fresh "Hcur" in
  let Hstack := fresh "Hstack" in
  let Hroot := fresh "Hroot" in
  injection H as Hce Herr Hstage Hprev Hcur Hstack Hroot.

(** The START_TAG stage of an element whose start tag the grammar accepts. *)
Lemma stageStartTag_ok q st i parent tag attrs cs w' :
  _curEl st = i :: parent ->
  nodeAt (root st) (i :: parent) = Some (Element tag attrs cs) ->
  acceptStartTag tag attrs (_validationWalker st) = Some w' ->
  exists st',
    stageStartTag q st = (Ret true, st')
    /\ _validationWalker st' = w'
    /\ _cycleEntered st' = _cycleEntered st - 1
    /\ _errors st' = _errors st
    /\ _validationStage st' = CONTENTS
    /\ _previousChild st' = _previousChild st
    /\ _curEl st' = _curEl st
    /\ root st' = root st
    /\ length (_validationStack st') = S (length (_validationStack st)).
Proof.
  intros Hcur0 Hnode Hacc. unfold acceptStartTag in Hacc.
  destruct (fireOk _ EnterContext) as [w1 |] eqn:Ef1; [| discriminate].
  destruct (acceptPrefixes attrs w1) as [w2 |] eqn:Ep; [| discriminate].
  destruct (resolveName w2 tag false) as [ename |] eqn:Er; [| discriminate].
  destruct (fireOk w2 _) as [w3 |] eqn:Ef3; [| discriminate].
  destruct (acceptAttributes attrs w3) as [w4 |] eqn:Ea; [| discriminate].
  unfold stageStartTag, eventsLength, _fireAttributeEvents.
  cbn [bind gets modify]. rewrite Hcur0.
  set (sa := set_validationStack _ st).
  destruct (fireLive_ok EnterContext (Some (NodeAt (i :: parent))) (Some 0%nat) sa w1 Ef1)
    as (s1 & E1 & Hw1 & Hv1).
  rewrite (bind_eq _ _ _ _ _ E1). cbn [bind gets].
  travView_fields Hv1. rewrite Hroot, Hnode.
  rewrite <- Hw1 in Ep.
  destruct (definePrefixLoop_ok (i :: parent) attrs s1 w2 Ep)
    as (s2 & E2 & Hw2 & Hv2).
  rewrite (bind_eq _ _ _ _ _ E2). cbn [bind gets].
  travView_fields Hv2.
  rewrite Hw2, Er. cbn [bind ret].
  destruct (setPossibleDueToWildcard_ok
              (NodeAt (i :: parent)) w2 "enterStartTag"
              (ename_ns ename) (ename_name ename) s2)
    as (s3 & E3 & Hw3 & Hv3).
  rewrite (bind_eq _ _ _ _ _ E3).
  travView_fields Hv3.
  rewrite <- Hw2, <- Hw3 in Ef3.
  destruct (fireLive_ok _ (Some (NodeAt parent)) (Some i) s3 w3 Ef3)
    as (s4 & E4 & Hw4 & Hv4).
  rewrite (bind_eq _ _ _ _ _ E4). cbn [bind gets modify _setNodeProperty].
  travView_fields Hv4.
  set (s5 := set_expando _ s4).
  assert (Hlive : exists s6,
             onLiveWalker (fun w => fireAttributeLoop w (i :: parent) 0 attrs) s5
             = (Ret tt, s6)
             /\ _validationWalker s6 = w4 /\ travView s6 = travView s5).
  { unfold onLiveWalker. cbn [bind gets].
    change (_validationWalker s5) with (_validationWalker s4). rewrite Hw4.
    destruct (fireAttributeLoop_ok attrs w3 (i :: parent) 0%nat s5 w4 Ea)
      as (s6 & E6 & Hw6 & Hv6).
    rewrite (bind_eq _ _ _ _ _ E6). cbn [modify].
    eexists. split; [reflexivity |]. split; [reflexivity |]. exact Hv6. }
  destruct Hlive as (s6 & E6 & Hw6 & Hv6).
  rewrite (bind_eq _ _ _ _ _ E6). cbn [bind gets modify _setNodeProperty].
  travView_fields Hv6.
  set (s7 := set_expando _ s6).
  assert (Ef7 : fireOk (_validationWalker s7) LeaveStartTag = Some w')
    by (change (_validationWalker s7) with (_validationWalker s6);
        rewrite Hw6; exact Hacc).
  destruct (fireLive_ok _ (Some (NodeAt (i :: parent))) (Some 0%nat) s7 w' Ef7)
    as (s8 & E8 & Hw8 & Hv8).
  rewrite (bind_eq _ _ _ _ _ E8). cbn [bind gets modify ret _setNodeProperty].
  travView_fields Hv8.
  eexists. split; [reflexivity |]. simpl.
  split; [exact Hw8 |].
  split; [congruence |]. split; [congruence |]. split; [reflexivity |].
  split; [congruence |]. split; [congruence |]. split; [congruence |].
  repeat match goal with
         | H : _validationStack ?a = _
           |- context [_validationStack ?a] => rewrite H
         | s := set_expando _ _ |- _ => subst s; cbn [_validationStack set_expando]
         end.
  reflexivity.
Qed.

Definition accNodeOk (parent : Path) (acc : list string) (accNode : option Path)
  : Prop :=
  match accNode with
  | None => acc = []
  | Some p => exists k, p = k :: parent
  end.

Lemma flushText_ok parent acc accNode st w' :
  accNodeOk parent acc accNode ->
  acceptText acc (_validationWalker st) = Some w' ->
  exists st',
    flushText acc accNode st = (Ret tt, st')
    /\ _validationWalker st' = w'
    /\ travView st' = travView st.
Proof.
  intros Hok. unfold flushText, acceptText, fireOk.
  destruct acc as [| a acc].
  - intros [= <-]. eexists. split; [reflexivity |]. auto.
  - cbn [bind gets].
    destruct (fireEvent (_validationWalker st) (TextEvent (join (a :: acc))))
      as [w1 r].
    simpl fst. simpl snd.
    destruct r as [[| e errs] |]; simpl; try discriminate; intros [= <-].
    + cbn [bind modify]. destruct accNode as [p |]; [| discriminate Hok].
      destruct Hok as [k ->]. simpl.
      eexists. split; [reflexivity |]. auto.
    + cbn [bind modify ret]. eexists. split; [reflexivity |]. auto.
Qed.

(** The scan of the CONTENTS stage: the text gathered and the next element,
    or the text gathered up to the end of the children. *)
Inductive Scan :=
| ScanEnd (acc : list string)
| ScanElement (acc : list string) (k : nat) (tag : string) (attrs : list Attr)
              (cs rest : list Node)
| ScanBad.

Fixpoint nextElement (rest : list Node) (acc : list string) (i : nat) : Scan :=
  match rest with
  | [] => ScanEnd acc
  | c :: rest' =>
      match c with
      | Text data => nextElement rest' (acc ++ [data])%list (S i)
      | Comment _ => nextElement rest' acc (S i)
      | Element tag attrs cs => ScanElement acc i tag attrs cs rest'
      | _ => ScanBad
      end
  end.

Lemma acceptContents_scan rest : forall acc i w,
  acceptContents rest acc w =
  match nextElement rest acc i with
  | ScanEnd acc' => acceptText acc' w
  | ScanElement acc' k tag attrs cs r =>
      match acceptText acc' w with
      | Some w1 =>
          match acceptNode (Element tag attrs cs) w1 with
          | Some w2 => acceptContents r [] w2
          | None => None
          end
      | None => None
      end
  | ScanBad => None
  end.
Proof.
  induction rest as [| c rest IH]; intros acc i w; [reflexivity |].
  destruct c; try reflexivity; simpl; apply IH.
Qed.

Lemma nextElement_found rest : forall acc i acc' k tag attrs cs r,
  nextElement rest acc i = ScanElement acc' k tag attrs cs r ->
  exists m,
    k = (i + m)%nat
    /\ rest !! m = Some (Element tag attrs cs)
    /\ r = drop (S m) rest.
Proof.
  induction rest as [| c rest IH]; intros acc i acc' k tag attrs cs r; simpl.
  - discriminate.
  - destruct c; try discriminate.
    + intros [= <- <- <- <- <- <-]. exists 0%nat. split; [lia |]. auto.
    + intros H. apply IH in H as (m & -> & Hm & ->).
      exists (S m). split; [lia |]. auto.
    + intros H. apply IH in H as (m & -> & Hm & ->).
      exists (S m). split; [lia |]. auto.
Qed.

Lemma nextElement_cycles rest : forall acc i,
  match nextElement rest acc i with
  | ScanEnd _ => cyclesOf rest = 0%nat
  | ScanElement _ _ tag attrs cs r =>
      cyclesOf rest = (S (S (cyclesOf cs)) + cyclesOf r)%nat
  | ScanBad => True
  end.
Proof.
  induction rest as [| c rest IH]; intros acc i; [reflexivity |].
  destruct c; try exact I.
  - reflexivity.
  - simpl. apply IH.
  - simpl. apply IH.
Qed.

(** The CONTENTS stage that runs out of children. *)
Lemma contentsLoop_end q parent rest : forall i acc accNode st acc' w',
  nextElement rest acc i = ScanEnd acc' ->
  accNodeOk parent acc accNode ->
  acceptText acc' (_validationWalker st) = Some w' ->
  exists st',
    contentsLoop q parent i rest acc accNode st = (Ret ToEndTag, st')
    /\ _validationWalker st' = w'
    /\ _validationStage st' = END_TAG
    /\ (_cycleEntered st', _errors st', _previousChild st', _curEl st',
        _validationStack st', root st')
       = (_cycleEntered st, _errors st, _previousChild st, _curEl st,
          _validationStack st, root st).
Proof.
  induction rest as [| c rest IH]; intros i acc accNode st acc' w'; simpl.
  - intros [= <-] Hok Hacc.
    destruct (flushText_ok _ _ _ _ _ Hok Hacc) as (st1 & E1 & Hw1 & Hv1).
    rewrite (bind_eq _ _ _ _ _ E1). cbn [bind modify ret].
    travView_fields Hv1.
    eexists. split; [reflexivity |]. simpl. split; [exact Hw1 |].
    split; [reflexivity |]. congruence.
  - destruct c; try discriminate.
    + intros Hscan Hok. apply (IH _ _ _ _ _ _ Hscan).
      destruct accNode; simpl; eauto.
    + intros Hscan Hok. apply (IH _ _ _ _ _ _ Hscan). exact Hok.
Qed.

(** The CONTENTS stage that meets an element. *)
Lemma contentsLoop_element q parent rest :
  forall i acc accNode st acc' k tag attrs cs r w',
  nextElement rest acc i = ScanElement acc' k tag attrs cs r ->
  accNodeOk parent acc accNode ->
  acceptText acc' (_validationWalker st) = Some w' ->
  exists st' q',
    contentsLoop q parent i rest acc accNode st = (Ret (ToStartTag q'), st')
    /\ _validationWalker st' = w'
    /\ _validationStage st' = START_TAG
    /\ _curEl st' = k :: parent
    /\ _previousChild st' = None
    /\ (_cycleEntered st', _errors st', _validationStack st', root st')
       = (_cycleEntered st, _errors st, _validationStack st, root st).
Proof.
  induction rest as [| c rest IH];
    intros i acc accNode st acc' k tag attrs cs r w'; simpl.
  - discriminate.
  - destruct c; try discriminate.
    + intros [= <- <- <- <- <- <-] Hok Hacc.
      destruct (flushText_ok _ _ _ _ _ Hok Hacc) as (st1 & E1 & Hw1 & Hv1).
      rewrite (bind_eq _ _ _ _ _ E1). cbn [bind gets modify ret].
      travView_fields Hv1.
      eexists _, _. split; [reflexivity |]. simpl. split; [exact Hw1 |].
      split; [reflexivity |]. split; [reflexivity |]. split; [reflexivity |].
      congruence.
    + intros Hscan Hok. apply (IH _ _ _ _ _ _ _ _ _ _ _ Hscan).
      destruct accNode; simpl; eauto.
    + intros Hscan Hok. apply (IH _ _ _ _ _ _ _ _ _ _ _ Hscan). exact Hok.
Qed.

Lemma setWorkingState_ok s d st :
  exists st',
    _setWorkingState s d st = (Ret tt, st')
    /\ _validationWalker st' = _validationWalker st
    /\ travView st' = travView st.
Proof.
  destruct (total_frame (keep (fun s0 : State => (travView s0, _validationWalker s0)))
                        (_setWorkingState s d) st) as ([] & st' & E & HR).
  - apply total_setWorkingState.
  - eapply @frame_setWorkingState_at; first [tc_solve | intros; reflexivity].
  - exists st'. split; [exact E |]. unfold keep in HR.
    split; [exact (f_equal snd HR) | exact (f_equal fst HR)].
Qed.

(** The END_TAG stage of an element whose end tag the grammar accepts. *)
Lemma closeElement_ok q st i parent tag attrs cs w' :
  nodeAt (root st) (i :: parent) = Some (Element tag attrs cs) ->
  acceptEndTag tag (_validationWalker st) = Some w' ->
  (parent <> [] -> (2 <= length (_validationStack st))%nat) ->
  exists st',
    closeElement q (i :: parent) parent st = (Ret true, st')
    /\ _validationWalker st' = w'
    /\ _cycleEntered st' = _cycleEntered st - 1
    /\ _errors st' = _errors st
    /\ _validationStage st' = CONTENTS
    /\ _previousChild st' = Some (i :: parent)
    /\ _curEl st' = parent
    /\ root st' = root st
    /\ (length (_validationStack st) <= S (length (_validationStack st')))%nat.
Proof.
  intros Hnode Hacc Hstack0. unfold acceptEndTag in Hacc.
  unfold closeElement, eventsLength. cbn [bind gets]. rewrite Hnode.
  cbn [bind gets].
  set (ename := match resolveName (_validationWalker st) tag false with
                | Some ename => ename
                | None => mkEName "" tag
                end) in *.
  destruct (fireOk _ (EndTag _ _)) as [w1 |] eqn:Ef1; [| discriminate].
  destruct (fireLive_ok _ (Some (NodeAt (i :: parent))) (Some (length cs)) st w1 Ef1)
    as (s1 & E1 & Hw1 & Hv1).
  rewrite (bind_eq _ _ _ _ _ E1).
  travView_fields Hv1.
  rewrite <- Hw1 in Hacc.
  destruct (fireLive_ok _ (Some (NodeAt (i :: parent))) (Some (length cs)) s1 w' Hacc)
    as (s2 & E2 & Hw2 & Hv2).
  rewrite (bind_eq _ _ _ _ _ E2). cbn [bind gets modify].
  travView_fields Hv2.
  destruct parent as [| pi pp].
  - cbn [bind ret].
    match goal with
    | |- context [bind (_setWorkingState ?s ?d) _ ?stx] =>
        destruct (setWorkingState_ok s d stx) as (s3 & E3 & Hw3 & Hv3);
        rewrite (bind_eq _ _ _ _ _ E3)
    end.
    cbn [bind gets modify ret _setNodeProperty].
    travView_fields Hv3. simpl in Hw3.
    eexists. split; [reflexivity |]. simpl.
    split; [congruence |]. split; [lia |]. split; [congruence |].
    split; [reflexivity |]. split; [assumption |]. split; [assumption |].
    split; [congruence |].
    rewrite Hstack2, Hstack1, Hstack. lia.
  - cbn [bind gets].
    assert (Hlen : (2 <= length (_validationStack st))%nat)
      by (apply Hstack0; discriminate).
    destruct (_validationStack st) as [| top [| first below]] eqn:Estack;
      simpl in Hlen; try lia.
    erewrite bind_eq;
      [| cbn [bind gets _validationStack set_curEl set_previousChild];
         rewrite Hstack1, Hstack; cbn [bind modify ret]; reflexivity].
    match goal with
    | |- context [bind (_setWorkingState ?s ?d) _ ?stx] =>
        destruct (setWorkingState_ok s d stx) as (s3 & E3 & Hw3 & Hv3);
        rewrite (bind_eq _ _ _ _ _ E3)
    end.
    cbn [bind gets modify ret _setNodeProperty].
    travView_fields Hv3. simpl in Hw3.
    eexists. split; [reflexivity |]. simpl.
    split; [congruence |]. split; [lia |]. split; [congruence |].
    split; [reflexivity |]. split; [assumption |]. split; [assumption |].
    split; [congruence |].
    rewrite Hstack2. simpl. lia.
Qed.

(** The traversal stands before the child [j] of the current element. *)
Definition position st (j : nat) : Prop :=
  (_previousChild st = None /\ j = 0%nat)
  \/ exists i, _previousChild st = Some (i :: _curEl st) /\ j = S i.

Lemma stageContents_run q st j :
  position st j ->
  stageContents q st =
  contentsLoop q (_curEl st) j (drop j (childrenAt (root st) (_curEl st))) [] None st.
Proof.
  unfold stageContents. cbn [bind gets].
  intros [[-> ->] | (i & -> & ->)]; reflexivity.
Qed.

(** Between two steps of the traversal of a tree that matches the grammar:
    no step is entered, no error is recorded, and what is left of the
    document is accepted from the walker as it stands. *)
Definition onTrack st (j : nat) : Prop :=
  _cycleEntered st = 0
  /\ _validationStage st = CONTENTS
  /\ _errors st = []
  /\ (S (length (_curEl st)) <= length (_validationStack st))%nat
  /\ position st j
  /\ acceptRest (root st) (_curEl st) j (_validationWalker st) = true.

Lemma childrenAt_lookup doc p k n :
  childrenAt doc p !! k = Some n -> nodeAt doc (k :: p) = Some n.
Proof.
  unfold childrenAt. rewrite nodeAt_child.
  destruct (nodeAt doc p); [auto |]. rewrite lookup_nil. discriminate.
Qed.

Lemma childrenAt_element doc p tag attrs cs :
  nodeAt doc p = Some (Element tag attrs cs) -> childrenAt doc p = cs.
Proof. unfold childrenAt. intros ->. reflexivity. Qed.

(** A step entered with the counter at 0 in the CONTENTS stage. *)
Lemma cycle_entry st top stack :
  _cycleEntered st = 0 ->
  _validationStack st = top :: stack ->
  _validationStage st = CONTENTS ->
  _cycle st =
  bind (stageContents (portion top))
       (fun exit =>
          match exit with
          | ToStartTag q' => stageStartTag q'
          | ToEndTag => stageEndTag (portion top)
          end)
       (set_cycleEntered 1 (set_restarting false st)).
Proof.
  intros Hce Hstack Hstage. unfold _cycle.
  cbn [bind modify gets _cycleEntered set_restarting].
  rewrite Hce.
  cbn [Z.ltb Z.compare bind modify gets _validationStack _validationStage
       set_cycleEntered set_restarting Z.add Pos.add].
  rewrite Hstack. cbn [bind gets _validationStage set_cycleEntered set_restarting].
  rewrite Hstage. reflexivity.
Qed.

Lemma acceptRest_unfold doc p j w :
  acceptRest doc p j w =
  match acceptContents (drop j (childrenAt doc p)) [] w with
  | None => false
  | Some w1 =>
      match p with
      | [] => noErrors (snd (walkerEnd w1))
      | i :: parent =>
          match nodeAt doc p with
          | Some (Element tag _ _) =>
              match acceptEndTag tag w1 with
              | Some w2 => acceptRest doc parent (S i) w2
              | None => false
              end
          | _ => false
          end
      end
  end.
Proof. destruct p; reflexivity. Qed.

Lemma cyclesLeft_unfold doc p j :
  cyclesLeft doc p j =
  (cyclesOf (drop j (childrenAt doc p)) +
   match p with
   | [] => 1
   | i :: parent => S (cyclesLeft doc parent (S i))
   end)%nat.
Proof. destruct p; reflexivity. Qed.

Lemma noErrors_errorsOf r : noErrors r = true -> errorsOf r = [].
Proof. destruct r as [[| e l] |]; simpl; intros H; try discriminate H; reflexivity. Qed.

(** One step of the traversal of a tree that matches the grammar. *)
Lemma cycle_onTrack st j :
  onTrack st j ->
  exists b st',
    _cycle st = (Ret b, st')
    /\ if b : bool
       then exists j',
           onTrack st' j'
           /\ root st' = root st
           /\ S (cyclesLeft (root st') (_curEl st') j')
              = cyclesLeft (root st) (_curEl st) j
       else _workingState st' = VALID
            /\ _errors st' = []
            /\ cyclesLeft (root st) (_curEl st) j = 1%nat.
Proof.
  intros (Hce & Hstage & Herr & Hlen & Hpos & Hacc).
  destruct (_validationStack st) as [| top stack] eqn:Estack; [simpl in Hlen; lia |].
  rewrite (cycle_entry st top stack Hce Estack Hstage).
  set (s0 := set_cycleEntered 1 (set_restarting false st)).
  assert (Hpos0 : position s0 j) by exact Hpos.
  rewrite acceptRest_unfold in Hacc.
  rewrite cyclesLeft_unfold.
  destruct (acceptContents _ [] _) as [w1 |] eqn:Hcont; [| discriminate].
  rewrite (acceptContents_scan _ [] j) in Hcont.
  pose proof (nextElement_cycles (drop j (childrenAt (root st) (_curEl st))) [] j)
    as Hcyc.
  destruct (nextElement _ [] j) as [acc' | acc' k tag attrs cs r |] eqn:Hscan;
    [| | discriminate].
  - (* the children are exhausted *)
    destruct (contentsLoop_end (portion top) (_curEl st) _ j [] None s0 acc' w1
                               Hscan eq_refl Hcont)
      as (s1 & E1 & Hw1 & Hstage1 & Hv1).
    injection Hv1 as Hce1 Herr1 Hprev1 Hcur1 Hstack1 Hroot1.
    simpl in Hce1, Herr1, Hprev1, Hcur1, Hstack1, Hroot1.
    erewrite bind_eq; [| rewrite (stageContents_run _ _ j Hpos0); exact E1].
    cbv beta iota. unfold stageEndTag. cbn [bind gets]. rewrite Hcur1.
    destruct (_curEl st) as [| i parent] eqn:Ecur.
    + (* at the root: the pass ends *)
      destruct (finishDocument_spec s1)
        as (s2 & E2 & _ & _ & _ & _ & Herr2 & Hws2 & _ & _).
      exists false, s2. split; [exact E2 |].
      rewrite Hw1 in Herr2.
      change (match snd (walkerEnd w1) with
              | Some errs => errs
              | None => []
              end) with (errorsOf (snd (walkerEnd w1))) in Herr2.
      rewrite (noErrors_errorsOf _ Hacc) in Herr2.
      simpl in Herr2. rewrite app_nil_r, Herr1, Herr in Herr2.
      rewrite Herr2 in Hws2. simpl in Hws2.
      split; [exact Hws2 |]. split; [exact Herr2 |]. rewrite Hcyc. reflexivity.
    + (* below the root: the end tag *)
      destruct (nodeAt (root st) (i :: parent)) as [[tag attrs cs | | | | |] |] eqn:Hnode;
        try discriminate.
      destruct (acceptEndTag tag w1) as [w2 |] eqn:Hend; [| discriminate].
      destruct (closeElement_ok (portion top) s1 i parent tag attrs cs w2)
        as (s2 & E2 & Hw2 & Hce2 & Herr2 & Hstage2 & Hprev2 & Hcur2 & Hroot2 & Hstack2).
      { rewrite Hroot1. exact Hnode. }
      { rewrite Hw1. exact Hend. }
      { intros _. rewrite Hstack1, Estack. simpl in Hlen |- *. lia. }
      exists true, s2. split; [exact E2 |].
      exists (S i). split; [| split].
      * split; [lia |]. split; [exact Hstage2 |]. split; [congruence |].
        split; [rewrite Hcur2; rewrite Hstack1, Estack in Hstack2;
                simpl in Hlen, Hstack2 |- *; lia |].
        split; [right; exists i; rewrite Hcur2; auto |].
        rewrite Hroot2, Hroot1, Hcur2, Hw2. exact Hacc.
      * congruence.
      * rewrite Hroot2, Hroot1, Hcur2, Hcyc. reflexivity.
  - (* an element is met *)
    destruct (acceptText acc' _) as [w2 |] eqn:Htext; [| discriminate].
    rewrite acceptNode_element in Hcont.
    destruct (acceptStartTag tag attrs w2) as [w3 |] eqn:Hstart; [| discriminate].
    destruct (acceptContents cs [] w3) as [w4 |] eqn:Hin; [| discriminate].
    destruct (acceptEndTag tag w4) as [w5 |] eqn:Hend; [| discriminate].
    destruct (nextElement_found _ _ _ _ _ _ _ _ _ Hscan) as (m & Hk & Hm & Hr).
    rewrite lookup_drop in Hm. rewrite <- Hk in Hm.
    apply childrenAt_lookup in Hm.
    rewrite drop_drop in Hr. replace (j + S m)%nat with (S k) in Hr by lia.
    destruct (contentsLoop_element (portion top) (_curEl st) _ j [] None s0
                                   acc' k tag attrs cs r w2 Hscan eq_refl Htext)
      as (s1 & q' & E1 & Hw1 & Hstage1 & Hcur1 & Hprev1 & Hv1).
    injection Hv1 as Hce1 Herr1 Hstack1 Hroot1.
    simpl in Hce1, Herr1, Hstack1, Hroot1.
    erewrite bind_eq; [| rewrite (stageContents_run _ _ j Hpos0); exact E1].
    cbv beta iota.
    destruct (stageStartTag_ok q' s1 k (_curEl st) tag attrs cs w3)
      as (s2 & E2 & Hw2 & Hce2 & Herr2 & Hstage2 & Hprev2 & Hcur2 & Hroot2 & Hstack2).
    { exact Hcur1. }
    { rewrite Hroot1. exact Hm. }
    { rewrite Hw1. exact Hstart. }
    exists true, s2. split; [exact E2 |].
    exists 0%nat. split; [| split].
    + split; [lia |]. split; [exact Hstage2 |]. split; [congruence |].
      split; [rewrite Hcur2, Hcur1, Hstack2, Hstack1, Estack;
              simpl in Hlen |- *; lia |].
      split; [left; split; [congruence | reflexivity] |].
      rewrite Hroot2, Hroot1, Hcur2, Hcur1, Hw2.
      rewrite acceptRest_unfold.
      rewrite (childrenAt_element _ _ _ _ _ Hm). rewrite drop_0, Hin, Hm, Hend.
      rewrite acceptRest_unfold. rewrite <- Hr, Hcont. exact Hacc.
    + congruence.
    + rewrite Hroot2, Hroot1, Hcur2, Hcur1.
      rewrite (cyclesLeft_unfold _ (k :: _curEl st) 0).
      rewrite (childrenAt_element _ _ _ _ _ Hm), drop_0.
      rewrite (cyclesLeft_unfold _ (_curEl st) (S k)), <- Hr, Hcyc. lia.
Qed.

Lemma runToCompletion_onTrack : forall n st j fuel,
  onTrack st j ->
  cyclesLeft (root st) (_curEl st) j = n ->
  (n <= fuel)%nat ->
  exists st',
    runToCompletion fuel st = (Ret tt, st')
    /\ _workingState st' = VALID
    /\ _errors st' = [].
Proof.
  induction n as [n IH] using lt_wf_ind. intros st j fuel Htrack Hn Hfuel.
  destruct (cycle_onTrack st j Htrack) as (b & st1 & E & Hb).
  destruct b.
  - destruct Hb as (j' & Htrack' & Hroot & Hleft).
    destruct fuel as [| fuel]; [lia |].
    simpl. rewrite (bind_eq _ _ _ _ _ E).
    apply (IH (cyclesLeft (root st1) (_curEl st1) j')) with (j := j');
      [lia | exact Htrack' | reflexivity | lia].
  - destruct Hb as (Hws & Herr & Hleft).
    destruct fuel as [| fuel]; [lia |].
    simpl. rewrite (bind_eq _ _ _ _ _ E). eauto.
Qed.

(** The state the constructor returns is at the start of the traversal. *)
Lemma newValidator_start doc store options st :
  newValidator doc store options = Ret st ->
  root st = doc
  /\ _curEl st = []
  /\ _previousChild st = None
  /\ _cycleEntered st = 0
  /\ _validationStage st = CONTENTS
  /\ _errors st = []
  /\ _validationEvents st = []
  /\ _validationWalker st = newWalker
  /\ _walkerCache st = ∅
  /\ length (_validationStack st) = 1%nat
  /\ _workingState st = INCOMPLETE.
Proof.
  unfold newValidator.
  destruct (checkOption K_timeout _ _); try discriminate.
  destruct (checkOption K_maxTimespan _ _); try discriminate.
  destruct (checkOption K_walkerCacheGap _ _); try discriminate.
  intros [= <-]. simpl. repeat split; reflexivity.
Qed.

Lemma newValidator_onTrack doc store options st :
  newValidator doc store options = Ret st ->
  matchesGrammar doc ->
  onTrack st 0.
Proof.
  intros Hnew (w & Hacc & Hend).
  destruct (newValidator_start _ _ _ _ Hnew)
    as (Hroot & Hcur & Hprev & Hce & Hstage & Herr & _ & Hw & _ & Hstack & _).
  split; [exact Hce |]. split; [exact Hstage |]. split; [exact Herr |].
  split; [rewrite Hcur, Hstack; simpl; lia |].
  split; [left; auto |].
  rewrite Hroot, Hcur, Hw, acceptRest_unfold.
  change (childrenAt doc []) with (childNodes doc).
  rewrite drop_0, Hacc. exact Hend.
Qed.


(** A validator is built with a sound cache, and the steps of the traversal
    keep it sound. *)
Lemma newValidator_cacheSound doc store options st :
  newValidator doc store options = Ret st -> cacheSound st.
Proof.
  intros Hnew.
  destruct (newValidator_start _ _ _ _ Hnew)
    as (_ & _ & _ & _ & _ & _ & _ & _ & Hcache & _).
  intros i w. rewrite Hcache, lookup_empty. discriminate.
Qed.

Lemma cycle_cacheSound st r st' :
  _cycle st = (r, st') -> cacheSound st -> cacheSound st'.
Proof.
  intros H. apply cacheSound_extended.
  assert (Hp : preserves logExtended _cycle) by (by_log @frame_cycle).
  exact (Hp _ _ _ H).
Qed.

End Claims.

(** ** The properties on the small grammar engine *)

Section Examples.
Import Toy.

Definition start1 : Toy.State := fresh doc1 noOptions.

(** [doc1] run to the end of its pass. *)
Definition done1 : Toy.State := snd (runToCompletion 5 start1).

Lemma doc1_matchesGrammar : matchesGrammar doc1.
Proof. eexists. split; vm_compute; reflexivity. Qed.

End Examples.


Lemma C2_witness :
  exists st1 st2 : Toy.State,
    newValidator Toy.doc1 ∅ (withGap 1 noOptions) = Ret st1
    /\ newValidator Toy.doc1 ∅ (withGap 1000 noOptions) = Ret st2
    /\ _errors (snd (runToCompletion 5 st1)) = _errors (snd (runToCompletion 5 st2))
    /\ _workingState (snd (runToCompletion 5 st1))
       = _workingState (snd (runToCompletion 5 st2)).
Proof.
  destruct (C2_walkerCacheGap_only_affects_caching
              (G := Toy.engine) Toy.doc1 ∅ noOptions 1 1000)
    as (st1 & st2 & E1 & E2 & Hrun & _); [lia | lia | exact I | exact I |].
  exists st1, st2. destruct (Hrun 5%nat) as (_ & He & _ & Hw). auto.
Defined.



(** C4 on the code: the walker of the small engine records the events fired
    on it.  After the pass over [<a x="1">hi<b/>t</a>] the walker of the
    validator has seen the text events [hi] and [t]; the event log has
    neither, and the walker [readyWalker] rebuilds from the whole log is not
    the walker of the validator. *)
Theorem C4_text_events_not_in_log :
  fst (runToCompletion 5 start1) = Ret tt
  /\ _validationWalker done1 =
     [EnterContext; EnterStartTag "" "a"; AttributeName "" "x";
      AttributeValue "1"; LeaveStartTag; TextEvent "hi"; EnterContext;
      EnterStartTag "" "b"; LeaveStartTag; EndTag "" "b"; LeaveContext;
      TextEvent "t"; EndTag "" "a"; LeaveContext]
  /\ _validationEvents done1 =
     [EnterContext; EnterStartTag "" "a"; AttributeName "" "x";
      AttributeValue "1"; LeaveStartTag; EnterContext;
      EnterStartTag "" "b"; LeaveStartTag; EndTag "" "b"; LeaveContext;
      EndTag "" "a"; LeaveContext]
  /\ _validationEvents done1 <> _validationWalker done1
  /\ exists w,
      fst (readyWalker (Some (PNum (length (_validationEvents done1)))) done1)
      = Ret w
      /\ w <> _validationWalker done1.
Proof.
  split; [vm_compute; reflexivity |].
  split; [vm_compute; reflexivity |].
  split; [vm_compute; reflexivity |].
  split; [vm_compute; discriminate |].
  eexists. split; [vm_compute; reflexivity |]. vm_compute. discriminate.
Qed.

Lemma C5_witness :
  exists (r : list Toy.Pattern) (st1 st2 : Toy.State),
    possibleAt 10 (AttrAt [0%nat] 0) 0 false start1 = (Ret r, st1)
    /\ possibleAt 0 (AttrAt [0%nat] 0) 0 false st1 = (Ret r, st2)
    /\ expando st2 = expando st1.
Proof.
  assert (E : possibleAt 10 (AttrAt [0%nat] 0) 0 false start1
              = (Ret (possible (W := list Event) []),
                 snd (possibleAt 10 (AttrAt [0%nat] 0) 0 false start1)))
    by (vm_compute; reflexivity).
  destruct (C5_possibleAt_idempotent
              10 0 (AttrAt [0%nat] 0) 0 false start1 _ _
              (newValidator_cacheSound Toy.doc1 ∅ noOptions start1 eq_refl) E)
    as (st2 & E2 & Hexp).
  eexists _, _, st2. split; [exact E |]. split; [exact E2 | exact Hexp].
Defined.


(** C7 on the code: in [<a><?pi?></a>] the step that meets the processing
    instruction throws "unexpected node type" and leaves [_cycleEntered] at
    1; the next step, entered while no step is running, throws the error of
    a step entered twice. *)
Theorem C7_counter_left_set_by_fatal_error :
  exists st1 st2 st3 : Toy.State,
    _cycle (Toy.fresh Toy.docPI noOptions) = (Ret true, st1)
    /\ _cycleEntered st1 = 0
    /\ _cycle st1 = (Throw (UnexpectedNodeType 7), st2)
    /\ _cycleEntered st2 = 1
    /\ _cycle st2 = (Throw CycleReentered, st3).
Proof.
  eexists _, _, _.
  split; [vm_compute; reflexivity |].
  split; [vm_compute; reflexivity |].
  split; [vm_compute; reflexivity |].
  split; [vm_compute; reflexivity |].
  vm_compute; reflexivity.
Qed.

Lemma C9_witness :
  (exists key,
      newValidator (G := Toy.engine) Toy.doc1 ∅
                   (mkOptions None None None (Some (-1)))
      = Throw (NegativeOption key))
  /\ (exists st : Toy.State,
         newValidator Toy.doc1 ∅ (mkOptions None (Some 0) None (Some 7)) = Ret st
         /\ _timeout st = 0
         /\ _maxTimespan st = 100
         /\ _walkerCacheGap st = 7).
Proof.
  split.
  - apply (proj1 (C9_constructor_options
                    (G := Toy.engine) Toy.doc1 ∅
                    (mkOptions None None None (Some (-1))))).
    simpl. right. right. lia.
  - apply (proj2 (C9_constructor_options
                    (G := Toy.engine) Toy.doc1 ∅
                    (mkOptions None (Some 0) None (Some 7))));
      simpl; first [lia | exact I].
Defined.

